(** * Company inference of the POC briefing app

    A shallow embedding of the company-detection code of
    [google_helpers.py] ([attendees_to_company] with its local helpers
    [base_domain] and [pretty_from_domain]) and of the e-mail collection
    of [app.py] ([collect_event_emails]), together with the properties
    the design document states about them.

    Python strings are modelled as lists of 8-bit characters.  Case
    mapping and white space follow Python on the ASCII range (code points
    below 128), which is where domain names, the configured lists and the
    three text patterns live; characters from 128 on are carried along
    unchanged. *)

From stdpp Require Import base option list gmap strings.
From Stdlib Require Import Ascii NArith.

Set Default Proof Using "Type".

(* ===================================================================== *)
(** * Python strings *)
(* ===================================================================== *)

Module PyStr.

Definition str : Type := list ascii.

Inductive str_lit := SNil | SCons (c : ascii) (s : str_lit).

Fixpoint str_parse (b : list Byte.byte) : str_lit :=
  match b with
  | [] => SNil
  | x :: r => SCons (ascii_of_byte x) (str_parse r)
  end.

Fixpoint str_print (s : str_lit) : list Byte.byte :=
  match s with
  | SNil => []
  | SCons x r => byte_of_ascii x :: str_print r
  end.

Declare Scope str_scope.
Delimit Scope str_scope with str.
#[warnings="-via-type-remapping,-via-type-mismatch"]
String Notation str str_parse str_print
  (via str_lit mapping [[nil] => SNil, [cons] => SCons]) : str_scope.
Local Open Scope str_scope.

(** ** Characters *)

Definition code (c : ascii) : N := N_of_ascii c.

Definition in_range (lo hi c : ascii) : bool :=
  (code lo <=? code c)%N && (code c <=? code hi)%N.

Definition is_upper (c : ascii) : bool := in_range "A" "Z" c.
Definition is_lower (c : ascii) : bool := in_range "a" "z" c.

(** [str.lower] and [str.upper] on one character. *)
Definition lower_char (c : ascii) : ascii :=
  if is_upper c then ascii_of_N (code c + 32) else c.

Definition upper_char (c : ascii) : ascii :=
  if is_lower c then ascii_of_N (code c - 32) else c.

(** White space as [str.strip] and the pattern class [\s] see it:
    TAB, LF, VT, FF, CR, the separators FS, GS, RS, US, and the space. *)
Definition is_space (c : ascii) : bool :=
  in_range "009" "013" c || in_range "028" "032" c.

(** ** Whole strings *)

Definition lower (s : list ascii) : list ascii := lower_char <$> s.

Fixpoint lstrip (s : list ascii) : list ascii :=
  match s with
  | [] => []
  | c :: r => if is_space c then lstrip r else s
  end.

Definition rstrip (s : list ascii) : list ascii :=
  reverse (lstrip (reverse s)).

Definition strip (s : list ascii) : list ascii := rstrip (lstrip s).

(** [s.replace(c, "")] for a one-character [c]. *)
Definition remove_char (c : ascii) (s : list ascii) : list ascii :=
  filter (λ x, x ≠ c) s.

(** [c in s] for a one-character [c]. *)
Definition contains (c : ascii) (s : list ascii) : bool :=
  bool_decide (c ∈ s).

Fixpoint startswith (p s : list ascii) : bool :=
  match p, s with
  | [], _ => true
  | _ :: _, [] => false
  | x :: p', y :: s' => bool_decide (x = y) && startswith p' s'
  end.

(** [s.split(c)]: the head part and the parts after it; the result of
    Python's [split] with a separator is never empty. *)
Fixpoint split_parts (c : ascii) (s : list ascii)
  : list ascii * list (list ascii) :=
  match s with
  | [] => ([], [])
  | x :: r =>
      let '(p, ps) := split_parts c r in
      if bool_decide (x = c) then ([], p :: ps) else (x :: p, ps)
  end.

Definition split (c : ascii) (s : list ascii) : list (list ascii) :=
  let '(p, ps) := split_parts c s in p :: ps.

(** The text before and after the first [c], when there is one. *)
Fixpoint cut (c : ascii) (s : list ascii)
  : option (list ascii * list ascii) :=
  match s with
  | [] => None
  | x :: r =>
      if bool_decide (x = c) then Some ([], r)
      else prod_map (cons x) id <$> cut c r
  end.

(** [s.split(c, 1)]: cut at the first [c] only. *)
Definition split1 (c : ascii) (s : list ascii) : list (list ascii) :=
  match cut c s with
  | Some (a, b) => [a; b]
  | None => [s]
  end.

(** [sep.join(parts)]. *)
Fixpoint join (sep : list ascii) (parts : list (list ascii)) : list ascii :=
  match parts with
  | [] => []
  | [p] => p
  | p :: ps => p ++ sep ++ join sep ps
  end.

(** [parts[-2:]]. *)
Definition last_two {A} (l : list A) : list A := drop (length l - 2) l.

(** [s.capitalize()]: first character to upper case, the rest to lower
    case. *)
Definition capitalize (s : list ascii) : list ascii :=
  match s with
  | [] => []
  | c :: r => upper_char c :: lower r
  end.

End PyStr.

(* ===================================================================== *)
(** * Exceptions *)
(* ===================================================================== *)

Module Py.

Inductive exn := ValueError | IndexError | AttributeError.

(** A computation either returns or raises. *)
Inductive result (A : Type) : Type :=
| Ok (a : A)
| Raise (e : exn).
Global Arguments Ok {A} a.
Global Arguments Raise {A} e.

Global Instance result_ret : MRet result := @Ok.
Global Instance result_bind : MBind result := λ A B f m,
  match m with
  | Ok a => f a
  | Raise e => Raise e
  end.
Global Instance result_fmap : FMap result := λ A B f m,
  match m with
  | Ok a => Ok (f a)
  | Raise e => Raise e
  end.

(** [l[i]] *)
Definition index {A} (l : list A) (i : nat) : result A :=
  match l !! i with
  | Some x => Ok x
  | None => Raise IndexError
  end.

(** [a, b = l] *)
Definition unpack2 {A} (l : list A) : result (A * A) :=
  match l with
  | [a; b] => Ok (a, b)
  | _ => Raise ValueError
  end.

(** A stage of a function that may [return] early: [Some v] is
    [return v], [None] falls through to the code after the stage. *)
Definition or_continue {A} (stage : result (option A)) (rest : result A)
  : result A :=
  r ← stage;
  match r with
  | Some v => Ok v
  | None => rest
  end.

(** [a or b] on values that are [None] or an always-truthy object. *)
Definition py_or {A} (a b : option A) : option A :=
  match a with
  | Some _ => a
  | None => b
  end.

End Py.

(* ===================================================================== *)
(** * The fragment of [re] the three patterns use *)
(* ===================================================================== *)

Module Re.
Import PyStr.
Local Open Scope str_scope.

(** Members of a character class. *)
Inductive cset :=
| CRange (lo hi : ascii)   (* lo-hi *)
| CChar (c : ascii)        (* a literal member *)
| CSpace.                  (* \s *)

(** Pattern syntax.  Repetition is the greedy [{min,}] over a character
    class, the only repetition the patterns contain ([\s+], [\s*] and
    [[...]{2,}]); [RGroup] is capturing group 1. *)
Inductive regex :=
| REmpty
| RChar (c : ascii)
| RSet (cs : list cset)
| RCat (r1 r2 : regex)
| RAlt (r1 r2 : regex)
| RRep (cs : list cset) (min : nat)
| RGroup (r : regex).

(** A literal word. *)
Fixpoint lit (s : list ascii) : regex :=
  match s with
  | [] => REmpty
  | [c] => RChar c
  | c :: r => RCat (RChar c) (lit r)
  end.

(** One character against a literal; [ic] is the IGNORECASE flag. *)
Definition char_match (ic : bool) (x c : ascii) : bool :=
  if ic then bool_decide (lower_char x = lower_char c)
  else bool_decide (x = c).

(** One character against a class member.  Under IGNORECASE a range
    accepts a character when the character or one of its case variants
    lies in it. *)
Definition cset_match (ic : bool) (m : cset) (c : ascii) : bool :=
  match m with
  | CRange lo hi =>
      in_range lo hi c
      || (ic && (in_range lo hi (lower_char c) || in_range lo hi (upper_char c)))
  | CChar x => char_match ic x c
  | CSpace => is_space c
  end.

Definition set_match (ic : bool) (cs : list cset) (c : ascii) : bool :=
  existsb (λ m, cset_match ic m c) cs.

(** The match object: what [m.group(1)] gives, [None] when the group
    took no part in the match. *)
Record Match := { group1 : option (list ascii) }.

(** Greedy repetition with backtracking: take as many characters as
    the class accepts, and give them back one at a time while the rest
    of the pattern fails, never going below [min]. *)
Fixpoint rep {R} (p : ascii → bool) (min : nat) (s : list ascii)
    (k : list ascii → option R) : option R :=
  let stop := match min with O => k s | S _ => None end in
  match s with
  | [] => stop
  | c :: s' =>
      if p c then
        match rep p (pred min) s' k with
        | Some m => Some m
        | None => stop
        end
      else stop
  end.

(** The backtracking matcher, in continuation-passing style: [bt ic r s
    g k] matches [r] at the front of [s], with [g] the text captured so
    far, and hands the remaining input and the capture to [k]; when [k]
    fails the next alternative is tried. *)
Fixpoint bt {R} (ic : bool) (r : regex) (s : list ascii)
    (g : option (list ascii))
    (k : list ascii → option (list ascii) → option R) : option R :=
  match r with
  | REmpty => k s g
  | RChar x =>
      match s with
      | c :: s' => if char_match ic x c then k s' g else None
      | [] => None
      end
  | RSet cs =>
      match s with
      | c :: s' => if set_match ic cs c then k s' g else None
      | [] => None
      end
  | RCat r1 r2 => bt ic r1 s g (λ s' g', bt ic r2 s' g' k)
  | RAlt r1 r2 =>
      match bt ic r1 s g k with
      | Some m => Some m
      | None => bt ic r2 s g k
      end
  | RRep cs min => rep (set_match ic cs) min s (λ s', k s' g)
  | RGroup r1 =>
      bt ic r1 s g (λ s' _, k s' (Some (take (length s - length s') s)))
  end.

(** [re.match]: the pattern at the front of the text. *)
Definition match_here (ic : bool) (r : regex) (s : list ascii)
  : option Match :=
  bt ic r s None (λ _ g, Some {| group1 := g |}).

(** [re.search]: the leftmost position where the pattern matches. *)
Fixpoint search (ic : bool) (r : regex) (s : list ascii) : option Match :=
  match match_here ic r s with
  | Some m => Some m
  | None =>
      match s with
      | [] => None
      | _ :: s' => search ic r s'
      end
  end.

End Re.

(* ===================================================================== *)
(** * Calendar data *)
(* ===================================================================== *)

Module Calendar.
Import PyStr.

(** An entry of an event's attendee list: a dict, whose ["email"] is a
    string when it is there ([None] stands for a missing key and for
    [null]); a plain string; or any other value, known by what [str()]
    prints for it. *)
Inductive attendee :=
| ADict (email : option (list ascii))
| AStr (s : list ascii)
| AOther (printed : list ascii).

(** The organizer and creator records. *)
Record person := { person_email : option (list ascii) }.

(** The fields of an event record that the code reads. *)
Record event := {
  attendees : option (list attendee);
  organizer : option person;
  creator : option person;
}.

(** [str(a)] for an attendee that is not a dict. *)
Definition to_str (a : attendee) : list ascii :=
  match a with
  | ADict _ => []
  | AStr s => s
  | AOther printed => printed
  end.

End Calendar.

(* ===================================================================== *)
(** * google_helpers.py: company detection *)
(* ===================================================================== *)

Module GoogleHelpers.
Import PyStr Py Re Calendar.
Local Open Scope str_scope.

Record CompanyGuess := {
  companyName : list ascii;
  companyDomain : list ascii;
}.

(** ** Configuration from the environment *)

(** [os.getenv(name, default)] *)
Definition getenv (environ : gmap (list ascii) (list ascii))
    (name default : list ascii) : list ascii :=
  match environ !! name with
  | Some v => v
  | None => default
  end.

Definition INTERNAL_DEFAULT : list ascii :=
  "kempfenterprise.com,gmail.com,outlook.com,hotmail.com,yahoo.com,"
  ++ "icloud.com,aol.com,proton.me,protonmail.com,me.com".

Definition IGNORE_DEFAULT : list ascii :=
  "zoom.us,meetup.com,calendar.google.com,teams.microsoft.com".

(** [[d.strip().lower() for d in v.split(",") if d.strip()]] *)
Definition domain_list (v : list ascii) : list (list ascii) :=
  (λ d, lower (strip d)) <$> filter (λ d, strip d ≠ []) (split "," v).

Definition INTERNAL (environ : gmap (list ascii) (list ascii))
  : gset (list ascii) :=
  list_to_set (domain_list (getenv environ "INTERNAL_DOMAINS" INTERNAL_DEFAULT)).

Definition IGNORE (environ : gmap (list ascii) (list ascii))
  : gset (list ascii) :=
  list_to_set (domain_list (getenv environ "IGNORE_DOMAINS" IGNORE_DEFAULT)).

Definition PRIORITY (environ : gmap (list ascii) (list ascii))
  : list (list ascii) :=
  domain_list (getenv environ "DOMAIN_PRIORITY" "").

(** [[p.strip() for p in v.split(",") if ":" in p]] *)
Definition name_map_pairs (v : list ascii) : list (list ascii) :=
  strip <$> filter (λ p, ":"%char ∈ p) (split "," v).

(** The loop that fills [NAME_MAP]: [dom, name = p.split(":", 1)]
    raises when the split gives fewer than two parts. *)
Fixpoint name_map_loop (pairs : list (list ascii))
    (m : gmap (list ascii) (list ascii))
  : result (gmap (list ascii) (list ascii)) :=
  match pairs with
  | [] => Ok m
  | p :: rest =>
      '(dom, name) ← unpack2 (split1 ":" p);
      name_map_loop rest (<[lower (strip dom) := strip name]> m)
  end.

Definition NAME_MAP (environ : gmap (list ascii) (list ascii))
  : result (gmap (list ascii) (list ascii)) :=
  name_map_loop (name_map_pairs (getenv environ "DOMAIN_NAME_MAP" "")) ∅.

(** ** Domain normalization *)

(** [base_domain]; its argument is always a string, on which
    [(d or "")] is [d]. *)
Definition base_domain (d : list ascii) : list ascii :=
  let d := remove_char "@" (strip (lower d)) in
  let d := if startswith "www." d then drop 4 d else d in
  let parts := split "." d in
  if bool_decide (3 ≤ length parts) then join "." (last_two parts) else d.

Definition pretty_from_domain (d : list ascii) : result (list ascii) :=
  core ← index (split "." (base_domain d)) 0;
  Ok (if bool_decide (core ≠ []) then capitalize core else "Unknown").

(** ** Stage 1: candidate domains *)

(** The normalized e-mail text of one attendee. *)
Definition attendee_email (a : attendee) : list ascii :=
  match a with
  | ADict email => strip (lower (default "" email))
  | _ => strip (lower (to_str a))
  end.

(** The loop over the attendees; [email.split("@", 1)[1]] raises when
    the split gives one part only. *)
Fixpoint collect_domains (attendees : list attendee)
    (domains : list (list ascii)) : result (list (list ascii)) :=
  match attendees with
  | [] => Ok domains
  | a :: rest =>
      let email := attendee_email a in
      if contains "@" email then
        d ← index (split1 "@" email) 1;
        collect_domains rest (domains ++ [base_domain d])
      else collect_domains rest domains
  end.

(** [d and d not in INTERNAL and d not in IGNORE] *)
Definition is_external (internal ignore : gset (list ascii))
    (d : list ascii) : Prop :=
  (d ≠ []) ∧ (d ∉ internal) ∧ (d ∉ ignore).

Global Instance is_external_dec internal ignore d :
  Decision (is_external internal ignore d).
Proof. unfold is_external. apply _. Defined.

(** [[d for d in domains if d and d not in INTERNAL and d not in IGNORE]] *)
Definition external (internal ignore : gset (list ascii))
    (domains : list (list ascii)) : list (list ascii) :=
  filter (is_external internal ignore) domains.

(** ** The winner and its display name *)

(** [{"companyDomain": d, "companyName": NAME_MAP.get(d, pretty_from_domain(d))}];
    Python computes the default before it looks the key up. *)
Definition guess_for (name_map : gmap (list ascii) (list ascii))
    (d : list ascii) : result CompanyGuess :=
  pretty ← pretty_from_domain d;
  Ok {| companyDomain := d; companyName := default pretty (name_map !! d) |}.

(** ** Stage 2: the priority list *)

Fixpoint priority_stage (name_map : gmap (list ascii) (list ascii))
    (priority external : list (list ascii)) : result (option CompanyGuess) :=
  match priority with
  | [] => Ok None
  | p :: rest =>
      let pb := base_domain p in
      if bool_decide (pb ∈ external) then Some <$> guess_for name_map pb
      else priority_stage name_map rest external
  end.

(** ** Stage 3: majority vote *)

(** [collections.Counter]: a dict from element to count that keeps the
    order in which the keys were first inserted. *)
Fixpoint counter_add (k : list ascii) (c : list (list ascii * nat))
  : list (list ascii * nat) :=
  match c with
  | [] => [(k, 1)]
  | (k', n) :: r =>
      if bool_decide (k = k') then (k', S n) :: r
      else (k', n) :: counter_add k r
  end.

Definition Counter (l : list (list ascii)) : list (list ascii * nat) :=
  foldl (λ c k, counter_add k c) [] l.

(** [max(items, key=count)]: the running best is replaced only by a
    strictly larger count. *)
Definition max_count (first : list ascii * nat)
    (items : list (list ascii * nat)) : list ascii * nat :=
  foldl (λ best it, if bool_decide (best.2 < it.2) then it else best)
        first items.

(** [Counter.most_common(1)], which is [heapq.nlargest(1, items, key=count)]. *)
Definition most_common_1 (c : list (list ascii * nat))
  : list (list ascii * nat) :=
  match c with
  | [] => []
  | first :: items => [max_count first items]
  end.

Definition majority_stage (name_map : gmap (list ascii) (list ascii))
    (external : list (list ascii)) : result (option CompanyGuess) :=
  if bool_decide (external ≠ []) then
    top ← index (most_common_1 (Counter external)) 0;
    Some <$> guess_for name_map top.1
  else Ok None.

(** ** Stage 4: first acceptable domain of the unfiltered list *)

Fixpoint fallback_stage (name_map : gmap (list ascii) (list ascii))
    (internal ignore : gset (list ascii)) (domains : list (list ascii))
  : result (option CompanyGuess) :=
  match domains with
  | [] => Ok None
  | d :: rest =>
      if bool_decide (is_external internal ignore d)
      then Some <$> guess_for name_map d
      else fallback_stage name_map internal ignore rest
  end.

(** ** Stage 5: title and description *)

Definition PHRASE_CLASS : list cset :=
  [CRange "A" "Z"; CRange "a" "z"; CRange "0" "9";
   CChar "&"; CChar "."; CChar "-"; CChar " "].

(** [([A-Z][A-Za-z0-9&.\- ]{2,})] *)
Definition PHRASE : regex :=
  RGroup (RCat (RSet [CRange "A" "Z"]) (RRep PHRASE_CLASS 2)).

(** [(?:with|for)\s+([A-Z][A-Za-z0-9&.\- ]{2,})] *)
Definition PAT_WITH_FOR : regex :=
  RCat (RAlt (lit "with") (lit "for")) (RCat (RRep [CSpace] 1) PHRASE).

(** [POC[:\-]\s*([A-Z][A-Za-z0-9&.\- ]{2,})] *)
Definition PAT_POC : regex :=
  RCat (lit "POC")
       (RCat (RSet [CChar ":"; CChar "-"]) (RCat (RRep [CSpace] 0) PHRASE)).

(** [\(([A-Z][A-Za-z0-9&.\- ]{2,})\)] *)
Definition PAT_PAREN : regex :=
  RCat (RChar "(") (RCat PHRASE (RChar ")")).

(** The three searches; the first two pass [flags=re.IGNORECASE], the
    third passes no flag. *)
Definition search_with_for (text : list ascii) : option Match :=
  search true PAT_WITH_FOR text.
Definition search_poc (text : list ascii) : option Match :=
  search true PAT_POC text.
Definition search_paren (text : list ascii) : option Match :=
  search false PAT_PAREN text.

Definition first_match (text : list ascii) : option Match :=
  py_or (search_with_for text) (py_or (search_poc text) (search_paren text)).

Definition STOP_WORDS : list (list ascii) :=
  ["poc"; "call"; "meeting"; "demo"; "discovery"].

(** [" ".join([(event_summary or ""), (event_description or "")])] *)
Definition event_text (event_summary event_description : option (list ascii))
  : list ascii :=
  join " " [default "" event_summary; default "" event_description].

(** [m.group(1).strip()] raises when group 1 is [None]. *)
Definition text_stage (event_summary event_description : option (list ascii))
  : result (option CompanyGuess) :=
  let text := event_text event_summary event_description in
  match first_match text with
  | Some m =>
      g ← match group1 m with
          | Some g => Ok g
          | None => Raise AttributeError
          end;
      let cand := strip g in
      if bool_decide (lower cand ∉ STOP_WORDS)
      then Ok (Some {| companyDomain := ""; companyName := cand |})
      else Ok None
  | None => Ok None
  end.

Definition UNKNOWN : CompanyGuess :=
  {| companyDomain := ""; companyName := "Unknown" |}.

(** ** The resolver *)

Definition attendees_to_company
    (environ : gmap (list ascii) (list ascii))
    (attendees : option (list attendee))
    (event_summary event_description : option (list ascii))
  : result CompanyGuess :=
  let internal := INTERNAL environ in
  let ignore := IGNORE environ in
  let priority := PRIORITY environ in
  name_map ← NAME_MAP environ;
  (* 1) candidate domains *)
  domains ← collect_domains (default [] attendees) [];
  let external := external internal ignore domains in
  (* 2) priority domain wins if present *)
  or_continue (priority_stage name_map priority external) (
  (* 3) majority vote among external domains *)
  or_continue (majority_stage name_map external) (
  (* 4) any non-internal non-ignored domain at all *)
  or_continue (fallback_stage name_map internal ignore domains) (
  (* 5) title/description *)
  or_continue (text_stage event_summary event_description) (
  (* 6) unknown *)
  Ok UNKNOWN)))).

(** The resolver with stage 4 taken out, everything else as above. *)
Definition attendees_to_company_without_stage4
    (environ : gmap (list ascii) (list ascii))
    (attendees : option (list attendee))
    (event_summary event_description : option (list ascii))
  : result CompanyGuess :=
  let internal := INTERNAL environ in
  let ignore := IGNORE environ in
  let priority := PRIORITY environ in
  name_map ← NAME_MAP environ;
  domains ← collect_domains (default [] attendees) [];
  let external := external internal ignore domains in
  or_continue (priority_stage name_map priority external) (
  or_continue (majority_stage name_map external) (
  or_continue (text_stage event_summary event_description) (
  Ok UNKNOWN))).

End GoogleHelpers.

(* ===================================================================== *)
(** * app.py: the e-mails of an event *)
(* ===================================================================== *)

Module App.
Import PyStr Calendar.
Local Open Scope str_scope.

(** The loop over the attendees: a dict gives its e-mail when that is
    not empty, a string gives itself, anything else gives nothing. *)
Fixpoint attendee_emails (l : list attendee) (emails : list (list ascii))
  : list (list ascii) :=
  match l with
  | [] => emails
  | a :: rest =>
      match a with
      | ADict email =>
          let em := lower (strip (default "" email)) in
          if bool_decide (em ≠ []) then attendee_emails rest (emails ++ [em])
          else attendee_emails rest emails
      | AStr s => attendee_emails rest (emails ++ [lower (strip s)])
      | AOther _ => attendee_emails rest emails
      end
  end.

(** The loop over [("organizer", "creator")]; [e.get(key) or {}] turns
    a missing record into one without e-mail. *)
Fixpoint person_emails (l : list (option person)) (emails : list (list ascii))
  : list (list ascii) :=
  match l with
  | [] => emails
  | info :: rest =>
      let em := lower (strip (default "" (info ≫= person_email))) in
      if bool_decide (em ≠ []) then person_emails rest (emails ++ [em])
      else person_emails rest emails
  end.

(** The list [emails] before it is deduplicated. *)
Definition event_emails (e : event) : list (list ascii) :=
  let emails := attendee_emails (default [] (attendees e)) [] in
  person_emails [organizer e; creator e] emails.

(** The deduplication loop with its two variables [out] and [seen]. *)
Fixpoint dedup_loop (emails : list (list ascii))
    (out : list (list ascii)) (seen : gset (list ascii))
  : list (list ascii) :=
  match emails with
  | [] => out
  | em :: rest =>
      if bool_decide (em ∉ seen)
      then dedup_loop rest (out ++ [em]) ({[em]} ∪ seen)
      else dedup_loop rest out seen
  end.

Definition collect_event_emails (e : event) : list (list ascii) :=
  dedup_loop (event_emails e) [] ∅.

End App.

(* ===================================================================== *)
(** * app.py: event exclusion, resource text, Slack message *)
(* ===================================================================== *)

Module AppHelpers.
Import PyStr Calendar.
Local Open Scope str_scope.

(** [s.endswith(suffix)] *)
Definition endswith (suffix s : list ascii) : bool :=
  startswith (reverse suffix) (reverse s).

(** [exclude_event_by_domain(all_emails, excluded_domain, mode)] *)
Definition exclude_event_by_domain (all_emails : list (list ascii))
    (excluded_domain mode : list ascii) : bool :=
  if bool_decide (excluded_domain = [] ∨ all_emails = []) then false
  else
    let suffix := "@" ++ excluded_domain in
    if bool_decide (mode = "all")
    then forallb (endswith suffix) all_emails
    else existsb (endswith suffix) all_emails.

(** The part of the event loop that decides which events become rows:
    an event is kept unless its collected e-mails exclude it. *)
Definition listed_events (events : list event)
    (excluded_domain mode : list ascii) : list event :=
  filter (λ e, exclude_event_by_domain (App.collect_event_emails e)
                 excluded_domain mode = false) events.

(** A resource, a dict with the keys ["label"] and ["url"]. *)
Record resource := { label : list ascii; url : list ascii }.

(** A Slack block, by its ["type"] and the texts it carries: a header, a
    section of fields, a section of one text, and the actions row with
    its one button, which opens [url]. *)
Inductive block :=
| Header (text : list ascii)
| Fields (fields : list (list ascii))
| Section_ (text : list ascii)
| Actions (button_url : list ascii).

Section non_ascii.
(** Two one-character strings of the source lie outside the 8-bit range:
    the bullet [U+2022] and the em dash [U+2014]. *)
Variables (BULLET EM_DASH : list ascii).

(** [format_resources_text]: one line [BULLET *label*: url] per
    resource, joined by newlines; the empty string for no resource. *)
Definition format_resources_text (selected_resources : list resource)
  : list ascii :=
  if bool_decide (selected_resources = []) then ""
  else
    join ["010"%char]
      ((λ r, BULLET ++ " *" ++ label r ++ "*: " ++ url r)
         <$> selected_resources).

(** [x or default] on strings. *)
Definition or_str (x default : list ascii) : list ascii :=
  if bool_decide (x = []) then default else x.

(** [blocks.insert(i, b)] *)
Definition list_insert_at {A} (i : nat) (b : A) (l : list A) : list A :=
  take i l ++ b :: drop i l.

(** The blocks of the Slack message. *)
Definition slack_blocks
    (summary link company_name event_title event_time poc_emails
       resources_text : list ascii) : list block :=
  let blocks :=
    [ Header ("POC Slides Brief " ++ EM_DASH ++ " " ++ company_name);
      Fields [ "*Event:*" ++ ["010"%char] ++ event_title;
               "*When:*" ++ ["010"%char] ++ event_time;
               "*POC Emails:*" ++ ["010"%char] ++ or_str poc_emails EM_DASH ];
      Section_ (or_str summary "_(no summary)_");
      Actions link ] in
  if bool_decide (resources_text ≠ [])
  then list_insert_at 3 (Section_ resources_text) blocks
  else blocks.

(** [post_to_slack_if_enabled].  [auto_slack] is the sidebar toggle;
    [post_ok webhook blocks] tells whether the HTTP POST and
    [raise_for_status] go through without an exception.  The result is
    the list of POSTs made and the returned flag. *)
Definition post_to_slack_if_enabled
    (auto_slack : bool)
    (post_ok : list ascii → list block → bool)
    (summary link company_name event_title event_time poc_emails
       resources_text slack_webhook : list ascii)
  : list (list ascii * list block) * bool :=
  if negb auto_slack then ([], false)
  else if bool_decide (slack_webhook = []) then ([], false)
  else
    let blocks := slack_blocks summary link company_name event_title
                    event_time poc_emails resources_text in
    ([(slack_webhook, blocks)], post_ok slack_webhook blocks).

End non_ascii.

End AppHelpers.

(* ===================================================================== *)
(** * google_helpers.py on attendee data of any origin *)
(* ===================================================================== *)

(** [Calendar.attendee] describes the entries the Calendar API sends: a
    dict holds a string under ["email"].  The resolver itself accepts
    any list.  This module follows stage 1 on dicts that hold any value
    under ["email"]; after stage 1 the code is the one above. *)
Module Unvetted.
Import PyStr Py Calendar GoogleHelpers.
Local Open Scope str_scope.

(** A value as JSON has them: [None], a truth value, a number, a
    string; any other value (a float, a list, a dict) is known by its
    truth value, which is all the code asks of it. *)
Inductive value :=
| VNone
| VBool (b : bool)
| VInt (n : Z)
| VStr (s : list ascii)
| VOther (truth : bool).

(** The truth value of a value. *)
Definition truthy (v : value) : bool :=
  match v with
  | VNone => false
  | VBool b => b
  | VInt n => bool_decide (n ≠ 0%Z)
  | VStr s => bool_decide (s ≠ [])
  | VOther truth => truth
  end.

(** [v or ""] *)
Definition or_empty (v : value) : value :=
  if truthy v then v else VStr "".

(** [v.lower()]: of these values only a string has the method. *)
Definition lower_method (v : value) : result (list ascii) :=
  match v with
  | VStr s => Ok (lower s)
  | _ => Raise AttributeError
  end.

(** An entry of the attendee list: a dict, with what it holds under
    ["email"] ([None] for a missing key); a plain string; or any other
    value, known by what [str()] prints for it. *)
Inductive entry :=
| Dict (email : option value)
| Str (s : list ascii)
| Other (printed : list ascii).

(** [a.get("email")] *)
Definition get_email (email : option value) : value := default VNone email.

(** [(a.get("email") or "").lower().strip()] for a dict,
    [str(a).lower().strip()] for anything else. *)
Definition attendee_email (a : entry) : result (list ascii) :=
  match a with
  | Dict email =>
      s ← lower_method (or_empty (get_email email));
      Ok (strip s)
  | Str s => Ok (strip (lower s))
  | Other printed => Ok (strip (lower printed))
  end.

(** The loop of stage 1. *)
Fixpoint collect_domains (attendees : list entry)
    (domains : list (list ascii)) : result (list (list ascii)) :=
  match attendees with
  | [] => Ok domains
  | a :: rest =>
      email ← attendee_email a;
      if contains "@" email then
        d ← index (split1 "@" email) 1;
        collect_domains rest (domains ++ [base_domain d])
      else collect_domains rest domains
  end.

(** The resolver. *)
Definition attendees_to_company
    (environ : gmap (list ascii) (list ascii))
    (attendees : option (list entry))
    (event_summary event_description : option (list ascii))
  : result CompanyGuess :=
  let internal := INTERNAL environ in
  let ignore := IGNORE environ in
  let priority := PRIORITY environ in
  name_map ← NAME_MAP environ;
  (* 1) candidate domains *)
  domains ← collect_domains (default [] attendees) [];
  let external := external internal ignore domains in
  (* 2) priority domain wins if present *)
  or_continue (priority_stage name_map priority external) (
  (* 3) majority vote among external domains *)
  or_continue (majority_stage name_map external) (
  (* 4) any non-internal non-ignored domain at all *)
  or_continue (fallback_stage name_map internal ignore domains) (
  (* 5) title/description *)
  or_continue (text_stage event_summary event_description) (
  (* 6) unknown *)
  Ok UNKNOWN)))).

End Unvetted.

(* ===================================================================== *)
(** * Vocabulary of the statements and proofs *)
(* ===================================================================== *)

Import PyStr Py Re Calendar GoogleHelpers App.
Local Open Scope str_scope.

(** A string that [lower] leaves alone. *)
Definition lowered (s : list ascii) : Prop := Forall (λ c, lower_char c = c) s.

(** The text before the first [c]. *)
Fixpoint before_first (c : ascii) (s : list ascii) : list ascii :=
  match s with
  | [] => []
  | x :: r => if bool_decide (x = c) then [] else x :: before_first c r
  end.

(** Patterns in which every successful match has gone through group 1. *)
Fixpoint sets_group (r : regex) : bool :=
  match r with
  | RGroup _ => true
  | RCat r1 r2 => sets_group r1 || sets_group r2
  | RAlt r1 r2 => sets_group r1 && sets_group r2
  | _ => false
  end.


Section views.
Implicit Types (nm : gmap (list ascii) (list ascii)).
Implicit Types (internal ignore : gset (list ascii)).
Implicit Types (d : list ascii) (doms ext prio : list (list ascii)).

(** Every stage of the resolver has a view that computes its outcome
    without the error monad; the stage is later shown to return exactly
    that. *)

(** The domain an attendee contributes, if any. *)
Definition attendee_domain (a : attendee) : option (list ascii) :=
  (λ ab, base_domain ab.2) <$> cut "@" (attendee_email a).

Definition pretty d : list ascii :=
  let core := before_first "." (base_domain d) in
  if bool_decide (core ≠ []) then capitalize core else "Unknown".

Definition guess nm d : CompanyGuess :=
  {| companyDomain := d; companyName := default (pretty d) (nm !! d) |}.

Definition priority_winner prio ext : option (list ascii) :=
  head (filter (λ pb, pb ∈ ext) (base_domain <$> prio)).

Definition majority_winner ext : option (list ascii) :=
  match Counter ext with
  | [] => None
  | first :: items => Some (max_count first items).1
  end.

Definition fallback_winner internal ignore doms : option (list ascii) :=
  head (filter (is_external internal ignore) doms).

(** What the text stage decides from a match. *)
Definition text_outcome (m : Match) : option CompanyGuess :=
  let cand := strip (default [] (group1 m)) in
  if bool_decide (lower cand ∉ STOP_WORDS)
  then Some {| companyDomain := ""; companyName := cand |}
  else None.

Definition text_guess (s e : option (list ascii)) : option CompanyGuess :=
  first_match (event_text s e) ≫= text_outcome.

(** The whole resolver, stage by stage. *)
Definition resolve nm internal ignore prio doms (s e : option (list ascii))
  : CompanyGuess :=
  let ext := external internal ignore doms in
  match priority_winner prio ext with
  | Some pb => guess nm pb
  | None =>
    match majority_winner ext with
    | Some dom => guess nm dom
    | None =>
      match fallback_winner internal ignore doms with
      | Some d => guess nm d
      | None => default UNKNOWN (text_guess s e)
      end
    end
  end.

End views.

(** ** Counting and first occurrences *)

(** How often [k] occurs in [l]. *)
Definition count (k : list ascii) (l : list (list ascii)) : nat :=
  length (filter (λ x, x = k) l).

(** The elements of [l] not in [seen], each once, in the order in which
    they first occur. *)
Fixpoint firsts_from (seen : gset (list ascii)) (l : list (list ascii))
  : list (list ascii) :=
  match l with
  | [] => []
  | x :: r =>
      if bool_decide (x ∈ seen) then firsts_from seen r
      else x :: firsts_from ({[x]} ∪ seen) r
  end.

(** ** The display name, as the design document words it *)


(** ** Attendee entries that carry no e-mail address *)

(** No [@] in the e-mail field of a dict (or no field at all), in a
    plain string, or in what [str()] prints for another value. *)
Definition no_email (a : attendee) : Prop :=
  match a with
  | ADict None => True
  | ADict (Some email) => "@"%char ∉ email
  | AStr s => "@"%char ∉ s
  | AOther printed => "@"%char ∉ printed
  end.

(** ** Letter case in the searches *)

(** Two texts that differ in letter case only. *)
Definition same_up_to_case (t t' : list ascii) : Prop := lower t = lower t'.

(** A search that does not see letter case: on two texts that differ in
    case only it succeeds on both or on neither, and what it captures
    differs in case only. *)
Definition case_insensitive (f : list ascii → option Match) : Prop :=
  ∀ t t', same_up_to_case t t' →
    option_Forall2
      (λ m m', lower <$> group1 m = lower <$> group1 m') (f t) (f t').

(** Continuations of the matcher that agree, up to [Q], on texts and
    captures differing in case only. *)
Definition agree1 {R} (Q : R → R → Prop)
    (k k' : list ascii → option R) : Prop :=
  ∀ t t', same_up_to_case t t' → option_Forall2 Q (k t) (k' t').

Definition agree2 {R} (Q : R → R → Prop)
    (k k' : list ascii → option (list ascii) → option R) : Prop :=
  ∀ t t' h h', same_up_to_case t t' → lower <$> h = lower <$> h' →
               option_Forall2 Q (k t h) (k' t' h').

(** ** Vocabulary of the further properties *)

Import AppHelpers.


(** What one entry of [DOMAIN_NAME_MAP] contributes: the key and the
    name on both sides of its first colon. *)
Definition name_map_entry (p : list ascii)
  : option (list ascii * list ascii) :=
  (λ dn, (lower (strip dn.1), strip dn.2)) <$> cut ":" p.

(** An e-mail address, from its local part and its domain. *)
Definition address (p : list ascii * list ascii) : list ascii :=
  p.1 ++ "@" ++ p.2.

(** The UTF-8 bytes of the bullet [U+2022] and of the em dash
    [U+2014]. *)
Definition bullet_utf8 : list ascii := ["226"; "128"; "162"]%char.
Definition em_dash_utf8 : list ascii := ["226"; "128"; "148"]%char.

(** ** Attendee data of any origin *)



(** ** The addresses of an event *)

(** The address an attendee entry stands for: the stripped, lower-cased
    e-mail of a dict when that is not empty, the stripped, lower-cased
    text of a plain string. *)
Definition attendee_address (a : attendee) : option (list ascii) :=
  match a with
  | ADict email =>
      let em := lower (strip (default "" email)) in
      if bool_decide (em = []) then None else Some em
  | AStr s => Some (lower (strip s))
  | AOther _ => None
  end.

(** The address of the organizer or of the creator. *)
Definition person_address (info : option person) : option (list ascii) :=
  match info with
  | Some {| person_email := Some email |} =>
      let em := lower (strip email) in
      if bool_decide (em = []) then None else Some em
  | _ => None
  end.


(* ===================================================================== *)
(** * Facts about the string operations *)
(* ===================================================================== *)

Section chars.

(** Every statement about one character is settled by running through
    the 256 characters. *)
Local Ltac by_cases c := destruct c as [[] [] [] [] [] [] [] []]; vm_compute; intuition congruence.

Lemma lower_char_idem c : lower_char (lower_char c) = lower_char c.
Proof. by_cases c. Qed.

Lemma upper_lower_char c : upper_char (lower_char c) = upper_char c.
Proof. by_cases c. Qed.

Lemma lower_upper_char c : lower_char (upper_char c) = lower_char c.
Proof. by_cases c. Qed.

Lemma lower_or_upper_char c : c = lower_char c ∨ c = upper_char c.
Proof. by_cases c. Qed.

Lemma is_space_lower_char c : is_space (lower_char c) = is_space c.
Proof. by_cases c. Qed.

Lemma lower_char_at c : lower_char c = "@"%char → c = "@"%char.
Proof. by_cases c. Qed.

End chars.

Section strings.
Implicit Types (s p q : list ascii) (c : ascii) (P : ascii → Prop).

Lemma lower_lowered s : lowered (lower s).
Proof.
  unfold lowered, lower. apply Forall_fmap, Forall_true.
  intros c; apply lower_char_idem.
Qed.

Lemma lowered_lower s : lowered s → lower s = s.
Proof.
  unfold lower. induction 1 as [|c s Hc _ IH]; csimpl; [done|].
  by rewrite Hc, IH.
Qed.

Lemma lower_idem s : lower (lower s) = lower s.
Proof. apply lowered_lower, lower_lowered. Qed.

Lemma lower_app s p : lower (s ++ p) = lower s ++ lower p.
Proof. apply fmap_app. Qed.

Lemma lower_nil_inv s : lower s = [] → s = [].
Proof. apply fmap_nil_inv. Qed.

(** *** strip *)

Lemma lstrip_suffix s : lstrip s `suffix_of` s.
Proof.
  induction s as [|c s IH]; simpl; [done|].
  destruct (is_space c); [by apply suffix_cons_r | done].
Qed.

Lemma lstrip_Forall P s : Forall P s → Forall P (lstrip s).
Proof.
  intros H. destruct (lstrip_suffix s) as [k Hk].
  rewrite Hk in H. by apply Forall_app in H as [_ ?].
Qed.

Lemma rstrip_Forall P s : Forall P s → Forall P (rstrip s).
Proof.
  intros H. unfold rstrip.
  apply Forall_reverse, lstrip_Forall, Forall_reverse, H.
Qed.

Lemma strip_Forall P s : Forall P s → Forall P (strip s).
Proof. intros H. by apply rstrip_Forall, lstrip_Forall. Qed.

(** *** remove_char *)

Lemma remove_char_Forall P c s : Forall P s → Forall P (remove_char c s).
Proof.
  unfold remove_char. rewrite !Forall_forall.
  intros H x [_ Hx]%list_elem_of_filter. by apply H.
Qed.

Lemma remove_char_not_in c s : c ∉ remove_char c s.
Proof. unfold remove_char. rewrite list_elem_of_filter. by intros [? _]. Qed.

Lemma remove_char_id c s : c ∉ s → remove_char c s = s.
Proof.
  intros H. unfold remove_char.
  induction s as [|x s IH]; [done|].
  rewrite not_elem_of_cons in H. destruct H as [Hx Hs].
  rewrite filter_cons_True by done. by rewrite IH.
Qed.

(** *** split and join *)

Lemma split_cons c x s :
  split c (x :: s) =
    if bool_decide (x = c) then [] :: split c s
    else match split c s with
         | p :: ps => (x :: p) :: ps
         | [] => [[x]]
         end.
Proof.
  unfold split; simpl. destruct (split_parts c s) as [p ps].
  by case_bool_decide.
Qed.

Lemma split_nonempty c s : split c s ≠ [].
Proof. unfold split. by destruct (split_parts c s). Qed.

Lemma split_length c s : length (split c s) = S (length (filter (λ x, x = c) s)).
Proof.
  induction s as [|x s IH]; [done|].
  rewrite split_cons. case_bool_decide as Hx.
  - rewrite filter_cons_True by done. simpl. by rewrite IH.
  - rewrite filter_cons_False by done. rewrite <- IH.
    destruct (split c s) eqn:E; [by apply split_nonempty in E | done].
Qed.

Lemma split_Forall P c s : Forall P s → Forall (Forall P) (split c s).
Proof.
  induction 1 as [|x s Hx _ IH]; [by repeat constructor|].
  rewrite split_cons. case_bool_decide.
  - by constructor.
  - destruct (split c s) as [|p ps]; [by repeat constructor|].
    apply Forall_cons in IH as [Hp Hps]. by repeat constructor.
Qed.

Lemma split_no_sep c s : Forall (λ p, c ∉ p) (split c s).
Proof.
  induction s as [|x s IH]; [repeat constructor; by apply not_elem_of_nil|].
  rewrite split_cons. case_bool_decide as Hx.
  - constructor; [by apply not_elem_of_nil | done].
  - destruct (split c s) as [|p ps].
    + repeat constructor. rewrite list_elem_of_singleton. naive_solver.
    + apply Forall_cons in IH as [Hp Hps]. constructor; [|done].
      rewrite not_elem_of_cons. naive_solver.
Qed.

Lemma split_without c s : c ∉ s → split c s = [s].
Proof.
  induction s as [|x s IH]; [done|]. rewrite not_elem_of_cons.
  intros [Hx Hs]. rewrite split_cons, (IH Hs).
  by rewrite bool_decide_eq_false_2 by done.
Qed.

Lemma split_app_sep c p q : c ∉ p → split c (p ++ c :: q) = p :: split c q.
Proof.
  induction p as [|x p IH]; simpl.
  - intros _. rewrite split_cons. by rewrite bool_decide_eq_true_2.
  - rewrite not_elem_of_cons. intros [Hx Hp].
    rewrite split_cons, (IH Hp). by rewrite bool_decide_eq_false_2 by done.
Qed.

End strings.

Section more_strings.
Implicit Types (s p q : list ascii) (c : ascii) (P : ascii → Prop).

Lemma join_Forall P sep ps :
  Forall P sep → Forall (Forall P) ps → Forall P (join sep ps).
Proof.
  intros Hsep. induction 1 as [|p ps Hp Hps IH]; [done|].
  destruct ps as [|q ps]; [done|].
  change (Forall P (p ++ sep ++ join sep (q :: ps))).
  rewrite !Forall_app. auto.
Qed.

Lemma last_two_Forall {A} (Q : A → Prop) (l : list A) :
  Forall Q l → Forall Q (last_two l).
Proof. apply Forall_drop. Qed.

Lemma last_two_length {A} (l : list A) :
  2 ≤ length l → ∃ a b, last_two l = [a; b].
Proof.
  intros H. unfold last_two.
  assert (length (drop (length l - 2) l) = 2) as Hlen
    by (rewrite length_drop; lia).
  destruct (drop (length l - 2) l) as [|a [|b [|? ?]]]; simplify_eq/=.
  by exists a, b.
Qed.

Lemma split_head c s : split c s !! 0 = Some (before_first c s).
Proof.
  induction s as [|x s IH]; [done|].
  rewrite split_cons. simpl. case_bool_decide; [done|].
  destruct (split c s); simplify_eq/=. done.
Qed.


Lemma cut_Some c s : c ∈ s → ∃ a b, cut c s = Some (a, b) ∧ s = a ++ c :: b.
Proof.
  induction s as [|x s IH]; [by intros ?%elem_of_nil|].
  intros H. simpl. case_bool_decide as Hx.
  - subst. by exists [], s.
  - apply elem_of_cons in H as [?|H]; [congruence|].
    destruct (IH H) as (a & b & -> & ->). by exists (x :: a), b.
Qed.

Lemma split1_two c s : c ∈ s → ∃ a b, split1 c s = [a; b] ∧ s = a ++ c :: b.
Proof.
  intros (a & b & H & ->)%cut_Some. unfold split1. rewrite H. eauto.
Qed.

Lemma lstrip_keeps c s : c ∈ s → is_space c = false → c ∈ lstrip s.
Proof.
  intros Hc Hs. induction s as [|x s IH]; [done|].
  simpl. destruct (is_space x) eqn:Hx; [|done].
  apply elem_of_cons in Hc as [->|?]; [congruence | auto].
Qed.

Lemma strip_keeps c s : c ∈ s → is_space c = false → c ∈ strip s.
Proof.
  intros Hc Hs. unfold strip, rstrip.
  apply elem_of_reverse, lstrip_keeps; [|done].
  by apply elem_of_reverse, lstrip_keeps.
Qed.

End more_strings.

(* ===================================================================== *)
(** * Domain normalization *)
(* ===================================================================== *)

Section base_domain_facts.
Implicit Types (d r : list ascii).

(** What holds of every character of the stripped, lower-cased input and
    of the dot holds of every character of the base domain. *)
Lemma base_domain_Forall (P : ascii → Prop) d :
  P "."%char →
  Forall P (remove_char "@" (strip (lower d))) →
  Forall P (base_domain d).
Proof.
  intros Hdot H. unfold base_domain.
  set (d1 := remove_char "@" (strip (lower d))) in *.
  assert (Forall P (if startswith "www." d1 then drop 4 d1 else d1)) as H2.
  { destruct (startswith "www." d1); [by apply Forall_drop | done]. }
  set (d2 := if startswith "www." d1 then drop 4 d1 else d1) in *.
  case_bool_decide; [|done].
  apply join_Forall; [by repeat constructor|].
  by apply last_two_Forall, split_Forall.
Qed.

Lemma base_domain_lowered d : lowered (base_domain d).
Proof.
  apply base_domain_Forall; [done|].
  apply remove_char_Forall, strip_Forall, lower_lowered.
Qed.

Lemma base_domain_no_at d : "@"%char ∉ base_domain d.
Proof.
  assert (Forall (λ c, c ≠ "@"%char) (base_domain d)) as H.
  { apply base_domain_Forall; [done|].
    apply Forall_forall. intros c Hc ->. by apply remove_char_not_in in Hc. }
  rewrite Forall_forall in H. intros Hin. by apply (H _ Hin).
Qed.

(** A base domain has at most two labels. *)
Lemma base_domain_labels d : length (split "." (base_domain d)) ≤ 2.
Proof.
  unfold base_domain.
  set (d2 := if startswith "www." _ then _ else _).
  case_bool_decide as Hlen; [|lia].
  destruct (last_two_length (split "." d2)) as (p & q & Hpq); [lia|].
  assert (Forall (λ p, "."%char ∉ p) [p; q]) as Hdots.
  { rewrite <- Hpq. apply last_two_Forall, split_no_sep. }
  apply Forall_cons in Hdots as [Hp [Hq _]%Forall_cons].
  rewrite Hpq. change (join "." [p; q]) with (p ++ "."%char :: q).
  rewrite split_app_sep, (split_without _ q) by done. simpl; lia.
Qed.

(** A string that normalization has nothing to do on is left as it is. *)
Lemma base_domain_fixed r :
  lowered r → "@"%char ∉ r → strip r = r →
  startswith "www." r = false → length (split "." r) ≤ 2 →
  base_domain r = r.
Proof.
  intros Hlow Hat Hstrip Hwww Hlen. unfold base_domain.
  rewrite (lowered_lower r Hlow), Hstrip, (remove_char_id _ r Hat), Hwww.
  by rewrite bool_decide_eq_false_2 by lia.
Qed.

End base_domain_facts.

(** C3, as stated, fails: normalizing [www.www.com] gives [www.com],
    and normalizing that gives [com]. *)
Lemma base_domain_not_idempotent :
  base_domain (base_domain "www.www.com") ≠ base_domain "www.www.com".
Proof. vm_compute. discriminate. Qed.

(** C3 (amended): normalization is idempotent on every input whose
    normalized form has no white space at its ends and does not start
    with [www.]: for such [d], [base_domain (base_domain d) = base_domain d]. *)
Theorem base_domain_idempotent_on_clean (d : list ascii) :
  strip (base_domain d) = base_domain d →
  startswith "www." (base_domain d) = false →
  base_domain (base_domain d) = base_domain d.
Proof.
  intros Hstrip Hwww.
  apply base_domain_fixed;
    auto using base_domain_lowered, base_domain_no_at, base_domain_labels.
Qed.

Lemma base_domain_idempotent_on_clean_witness :
  base_domain (base_domain "Mail.Corp.ACME.com") = base_domain "Mail.Corp.ACME.com".
Proof. apply base_domain_idempotent_on_clean; reflexivity. Defined.

(* ===================================================================== *)
(** * The matcher *)
(* ===================================================================== *)

Section matcher.
Context {R : Type}.
Implicit Types (r : regex) (s t : list ascii) (g : option (list ascii)).

Lemma rep_inv p min s (k : list ascii → option R) m :
  rep p min s k = Some m → ∃ s', k s' = Some m ∧ s' `suffix_of` s.
Proof.
  revert min. induction s as [|c s IH]; intros min; simpl.
  - destruct min; [|done]. eauto.
  - assert ((match min with O => k (c :: s) | S _ => None end) = Some m →
            ∃ s', k s' = Some m ∧ s' `suffix_of` c :: s) as Hstop.
    { destruct min; [|done]. eauto. }
    destruct (p c); [|done].
    destruct (rep p (pred min) s k) as [m'|] eqn:E; [|done].
    intros [= ->]. destruct (IH _ E) as (s' & ? & ?).
    exists s'. split; [done|]. by apply suffix_cons_r.
Qed.

(** A successful match has called its continuation on a suffix of the
    input, with group 1 set when the pattern goes through it. *)
Lemma bt_inv ic r s g (k : list ascii → option (list ascii) → option R) m :
  bt ic r s g k = Some m →
  ∃ s' g', k s' g' = Some m ∧ s' `suffix_of` s ∧
           (is_Some g ∨ sets_group r = true → is_Some g').
Proof.
  revert s g k. induction r as [|x|cs|r1 IH1 r2 IH2|r1 IH1 r2 IH2|cs min|r1 IH1];
    intros s g k; simpl.
  - intros H. exists s, g. split_and!; [done..|]. intros [?|?]; done.
  - destruct s as [|c s]; [done|]. destruct (char_match ic x c); [|done].
    intros H. exists s, g. split_and!; [done|by apply suffix_cons_r|].
    intros [?|?]; done.
  - destruct s as [|c s]; [done|]. destruct (set_match ic cs c); [|done].
    intros H. exists s, g. split_and!; [done|by apply suffix_cons_r|].
    intros [?|?]; done.
  - intros H. apply IH1 in H as (s1 & g1 & H & Hs1 & Hg1).
    apply IH2 in H as (s2 & g2 & H & Hs2 & Hg2).
    exists s2, g2. split_and!; [done|by etrans|].
    rewrite orb_true_iff. intros [?|[?|?]]; auto.
  - destruct (bt ic r1 s g k) as [m'|] eqn:E.
    + intros [= ->]. apply IH1 in E as (s1 & g1 & H & Hs1 & Hg1).
      exists s1, g1. split_and!; [done..|].
      rewrite andb_true_iff. intros [?|[? ?]]; auto.
    + intros H. apply IH2 in H as (s2 & g2 & H & Hs2 & Hg2).
      exists s2, g2. split_and!; [done..|].
      rewrite andb_true_iff. intros [?|[? ?]]; auto.
  - intros (s' & H & Hs)%rep_inv. exists s', g.
    split_and!; [done..|]. intros [?|?]; done.
  - intros H. apply IH1 in H as (s1 & g1 & H & Hs1 & _).
    eexists s1, _. split_and!; [exact H|done|]. by intros _.
Qed.

End matcher.

Lemma match_here_group ic r s m :
  sets_group r = true → match_here ic r s = Some m → is_Some (group1 m).
Proof.
  intros Hr (s' & g' & [= <-] & _ & Hg)%bt_inv. simpl. auto.
Qed.

Lemma search_group ic r s m :
  sets_group r = true → search ic r s = Some m → is_Some (group1 m).
Proof.
  intros Hr. induction s as [|c s IH]; simpl.
  - destruct (match_here ic r []) eqn:E; [|done].
    intros [= ->]. by eapply match_here_group.
  - destruct (match_here ic r (c :: s)) eqn:E; [|done].
    intros [= ->]. by eapply match_here_group.
Qed.

Lemma first_match_group text m :
  first_match text = Some m → is_Some (group1 m).
Proof.
  unfold first_match, py_or, search_with_for, search_poc, search_paren.
  destruct (search true PAT_WITH_FOR text) eqn:E1.
  { intros [= ->]. eapply search_group; [|exact E1]; done. }
  destruct (search true PAT_POC text) eqn:E2.
  { intros [= ->]. eapply search_group; [|exact E2]; done. }
  intros H. eapply search_group; [|exact H]; done.
Qed.

(* ===================================================================== *)
(** * The stages of the resolver never raise *)
(* ===================================================================== *)

(** Each stage is shown equal to [Ok] of a value computed without the
    error monad; the guards of the code are what makes the raising
    branches unreachable. *)

Section stages.
Implicit Types (nm : gmap (list ascii) (list ascii)).
Implicit Types (internal ignore : gset (list ascii)).
Implicit Types (d : list ascii) (doms ext prio : list (list ascii)).

Lemma cut_None c s : c ∉ s → cut c s = None.
Proof.
  induction s as [|x s IH]; [done|]. rewrite not_elem_of_cons.
  intros [Hx Hs]. simpl. rewrite bool_decide_eq_false_2 by done.
  by rewrite (IH Hs).
Qed.

Lemma collect_domains_spec atts acc :
  collect_domains atts acc = Ok (acc ++ omap attendee_domain atts).
Proof.
  revert acc. induction atts as [|a atts IH]; intros acc.
  { simpl. by rewrite app_nil_r. }
  cbn [collect_domains omap list_omap]. unfold attendee_domain at 1, contains.
  case_bool_decide as Hat.
  - destruct (cut_Some _ _ Hat) as (x & y & Hcut & _).
    unfold split1. rewrite Hcut. simpl. rewrite IH.
    by rewrite <- app_assoc.
  - rewrite (cut_None _ _ Hat). simpl. apply IH.
Qed.

Lemma pretty_from_domain_spec d : pretty_from_domain d = Ok (pretty d).
Proof. unfold pretty_from_domain, index. by rewrite split_head. Qed.

Lemma guess_for_spec nm d : guess_for nm d = Ok (guess nm d).
Proof. unfold guess_for. by rewrite pretty_from_domain_spec. Qed.

Lemma priority_stage_spec nm prio ext :
  priority_stage nm prio ext = Ok (guess nm <$> priority_winner prio ext).
Proof.
  unfold priority_winner. induction prio as [|p prio IH]; [done|].
  cbn [priority_stage]. rewrite fmap_cons, filter_cons.
  case_bool_decide.
  - rewrite decide_True by done. by rewrite guess_for_spec.
  - by rewrite decide_False by done.
Qed.

Lemma counter_add_nonempty k c : counter_add k c ≠ [].
Proof. destruct c as [|[k' n] c]; simpl; [done|]. by case_bool_decide. Qed.

Lemma Counter_snoc l k : Counter (l ++ [k]) = counter_add k (Counter l).
Proof. unfold Counter. by rewrite foldl_snoc. Qed.

Lemma Counter_nonempty l : l ≠ [] → Counter l ≠ [].
Proof.
  destruct l as [|k l _] using rev_ind; [done|]. intros _.
  rewrite Counter_snoc. apply counter_add_nonempty.
Qed.

Lemma majority_stage_spec nm ext :
  majority_stage nm ext = Ok (guess nm <$> majority_winner ext).
Proof.
  unfold majority_stage, majority_winner. case_bool_decide as Hext.
  - apply Counter_nonempty in Hext.
    destruct (Counter ext) as [|first items]; [done|]. simpl.
    by rewrite guess_for_spec.
  - by subst.
Qed.

Lemma majority_winner_nil ext : majority_winner ext = None → ext = [].
Proof.
  unfold majority_winner. destruct ext as [|x ext]; [done|].
  pose proof (Counter_nonempty (x :: ext)) as H.
  destruct (Counter (x :: ext)); [|done]. by destruct H.
Qed.

Lemma fallback_stage_spec nm internal ignore doms :
  fallback_stage nm internal ignore doms
  = Ok (guess nm <$> fallback_winner internal ignore doms).
Proof.
  unfold fallback_winner. induction doms as [|d doms IH]; [done|].
  cbn [fallback_stage]. rewrite filter_cons. case_bool_decide.
  - rewrite decide_True by done. by rewrite guess_for_spec.
  - by rewrite decide_False by done.
Qed.

Lemma text_stage_spec s e : text_stage s e = Ok (text_guess s e).
Proof.
  unfold text_stage, text_guess.
  destruct (first_match (event_text s e)) as [m|] eqn:E; [|done].
  destruct (first_match_group _ _ E) as [g Hg]. simpl.
  unfold text_outcome. rewrite Hg. simpl. by case_bool_decide.
Qed.

Lemma name_map_loop_returns pairs nm :
  Forall (λ p, ":"%char ∈ p) pairs → ∃ nm', name_map_loop pairs nm = Ok nm'.
Proof.
  intros H. revert nm. induction H as [|p pairs Hp _ IH]; intros nm.
  { by exists nm. }
  destruct (split1_two _ _ Hp) as (a & b & Hsplit & _).
  simpl. rewrite Hsplit. simpl. apply IH.
Qed.

Lemma name_map_pairs_colon v : Forall (λ p, ":"%char ∈ p) (name_map_pairs v).
Proof.
  unfold name_map_pairs. apply Forall_fmap, Forall_forall.
  intros p [Hp _]%list_elem_of_filter. simpl. by apply strip_keeps.
Qed.

Lemma NAME_MAP_returns environ : ∃ nm, NAME_MAP environ = Ok nm.
Proof. apply name_map_loop_returns, name_map_pairs_colon. Qed.

Lemma attendees_to_company_spec environ atts s e nm :
  NAME_MAP environ = Ok nm →
  attendees_to_company environ atts s e
  = Ok (resolve nm (INTERNAL environ) (IGNORE environ) (PRIORITY environ)
          (omap attendee_domain (default [] atts)) s e).
Proof.
  intros Hnm. unfold attendees_to_company, resolve, or_continue.
  rewrite Hnm. simpl. rewrite collect_domains_spec. simpl.
  rewrite priority_stage_spec. simpl.
  destruct (priority_winner _ _); [done|].
  rewrite majority_stage_spec. simpl.
  destruct (majority_winner _); [done|].
  rewrite fallback_stage_spec. simpl.
  destruct (fallback_winner _ _ _); [done|].
  rewrite text_stage_spec. simpl. by destruct (text_guess s e).
Qed.

End stages.

(* ===================================================================== *)
(** * First occurrences and the majority vote *)
(* ===================================================================== *)

Section firsts.
Implicit Types (seen : gset (list ascii)) (l a b : list (list ascii)).
Implicit Types (x y k : list ascii).

Lemma firsts_from_elem seen l x :
  x ∈ firsts_from seen l ↔ x ∈ l ∧ x ∉ seen.
Proof.
  revert seen. induction l as [|h l IH]; intros seen; simpl.
  { rewrite elem_of_nil. tauto. }
  case_bool_decide as Hh.
  - rewrite IH, elem_of_cons. split; [tauto|].
    intros [[->|?] ?]; tauto.
  - rewrite !elem_of_cons, IH, not_elem_of_union, not_elem_of_singleton.
    split; [intros [->|(? & ? & ?)]; tauto|].
    intros [[->|?] ?]; [tauto|].
    destruct (decide (x = h)); tauto.
Qed.

Lemma firsts_from_NoDup seen l : NoDup (firsts_from seen l).
Proof.
  revert seen. induction l as [|h l IH]; intros seen; simpl.
  { constructor. }
  case_bool_decide; [done|]. constructor; [|done].
  rewrite firsts_from_elem, not_elem_of_union, not_elem_of_singleton. tauto.
Qed.

(** Where [x] stands before [b] among the first occurrences, the first
    position of [x] in [l] is before every position of a member of [b]. *)
Lemma firsts_from_order seen l a x b :
  firsts_from seen l = a ++ x :: b →
  ∃ i, l !! i = Some x ∧ (∀ q, l !! q = Some x → i ≤ q) ∧
       (∀ y q, y ∈ b → l !! q = Some y → i < q).
Proof.
  revert seen a. induction l as [|h l IH]; intros seen a; simpl.
  { by destruct a. }
  case_bool_decide as Hh.
  - intros H.
    assert (∀ y, y ∈ x :: b → y ≠ h) as Hne.
    { intros y Hy ->.
      assert (h ∈ firsts_from seen l) as Hin
        by (rewrite H, elem_of_app; auto).
      rewrite firsts_from_elem in Hin. tauto. }
    destruct (IH _ _ H) as (i & Hi & Hfirst & Hlater).
    exists (S i). split_and!; [done|..].
    + intros [|q] Hq; simplify_eq/=.
      { destruct (Hne x); [left|done]. }
      apply Hfirst in Hq. lia.
    + intros y [|q] Hy Hq; simplify_eq/=.
      { destruct (Hne y); [by right|done]. }
      apply (Hlater _ _ Hy) in Hq. lia.
  - destruct a as [|h' a]; intros [= <- H].
    + exists 0. split_and!; [done|intros; lia|].
      intros y [|q] Hy Hq; simplify_eq/=; [|lia].
      rewrite firsts_from_elem, not_elem_of_union, not_elem_of_singleton in Hy.
      tauto.
    + assert (∀ y, y ∈ x :: b → y ≠ h) as Hne.
      { intros y Hy ->.
        assert (h ∈ firsts_from ({[h]} ∪ seen) l) as Hin
          by (rewrite H, elem_of_app; auto).
        rewrite firsts_from_elem, not_elem_of_union, not_elem_of_singleton
          in Hin. tauto. }
      destruct (IH _ _ H) as (i & Hi & Hfirst & Hlater).
      exists (S i). split_and!; [done|..].
      * intros [|q] Hq; simplify_eq/=.
        { destruct (Hne x); [left|done]. }
        apply Hfirst in Hq. lia.
      * intros y [|q] Hy Hq; simplify_eq/=.
        { destruct (Hne y); [by right|done]. }
        apply (Hlater _ _ Hy) in Hq. lia.
Qed.

Lemma count_cons k x l :
  count k (x :: l) = if bool_decide (x = k) then S (count k l) else count k l.
Proof.
  unfold count. rewrite filter_cons. case_bool_decide.
  - by rewrite decide_True.
  - by rewrite decide_False.
Qed.

Lemma count_cons_ne k x l : k ≠ x → count k (x :: l) = count k l.
Proof.
  intros. rewrite count_cons. by rewrite bool_decide_eq_false_2.
Qed.

End firsts.

Section counter.
Implicit Types (c : list (list ascii * nat)) (l : list (list ascii)).
Implicit Types (k x : list ascii).

(** Adding to a key that is there bumps its count in place. *)
Lemma counter_add_in k c :
  NoDup c.*1 → k ∈ c.*1 →
  counter_add k c
  = (λ kn, if bool_decide (kn.1 = k) then (kn.1, S kn.2) else kn) <$> c.
Proof.
  induction c as [|[k' n] c IH]; [by intros _ ?%elem_of_nil|].
  rewrite fmap_cons, NoDup_cons, elem_of_cons.
  intros [Hk' Hnd] Hk. cbn [counter_add fmap list_fmap fst snd].
  case_bool_decide as E.
  - subst k'. rewrite bool_decide_eq_true_2 by done. f_equal.
    symmetry. etrans; [|apply list_fmap_id]. apply Forall_fmap_ext.
    apply Forall_forall. intros [k2 n2] Hin. simpl.
    case_bool_decide; [|done]. subst.
    destruct Hk'. by apply (list_elem_of_fmap_2 fst) in Hin.
  - rewrite bool_decide_eq_false_2 by done. f_equal.
    apply IH; [done|]. by destruct Hk as [?|?]; [simplify_eq/=|].
Qed.

(** Adding a new key puts it at the end. *)
Lemma counter_add_new k c : k ∉ c.*1 → counter_add k c = c ++ [(k, 1)].
Proof.
  induction c as [|[k' n] c IH]; [done|].
  rewrite fmap_cons, not_elem_of_cons. intros [Hk Hc]. simpl.
  rewrite bool_decide_eq_false_2 by done. by rewrite IH.
Qed.

Lemma counter_foldl c l :
  NoDup c.*1 →
  foldl (λ c k, counter_add k c) c l
  = ((λ kn, (kn.1, kn.2 + count kn.1 l)) <$> c)
    ++ ((λ k, (k, count k l)) <$> firsts_from (list_to_set c.*1) l).
Proof.
  revert c. induction l as [|x l IH]; intros c Hnd.
  { simpl. rewrite app_nil_r. symmetry. etrans; [|apply list_fmap_id].
    apply Forall_fmap_ext, Forall_forall. intros [k n] _. simpl.
    by rewrite Nat.add_0_r. }
  cbn [foldl firsts_from]. case_bool_decide as Hx.
  - rewrite elem_of_list_to_set in Hx.
    rewrite (counter_add_in _ _ Hnd Hx).
    set (bump := λ kn : list ascii * nat,
           if bool_decide (kn.1 = x) then (kn.1, S kn.2) else kn).
    assert ((bump <$> c).*1 = c.*1) as Hkeys.
    { rewrite <- list_fmap_compose. apply Forall_fmap_ext, Forall_forall.
      intros [k n] _. unfold bump. simpl. by case_bool_decide. }
    rewrite IH, Hkeys by by rewrite Hkeys. f_equal.
    + rewrite <- list_fmap_compose. apply Forall_fmap_ext, Forall_forall.
      intros [k n] _. unfold bump. simpl. rewrite count_cons.
      case_bool_decide; simpl.
      * subst. rewrite bool_decide_eq_true_2 by done. f_equal. lia.
      * by rewrite bool_decide_eq_false_2 by done.
    + apply Forall_fmap_ext, Forall_forall. intros k Hk.
      rewrite firsts_from_elem, elem_of_list_to_set in Hk.
      rewrite count_cons_ne; [done|]. intros ->. tauto.
  - rewrite elem_of_list_to_set in Hx.
    rewrite (counter_add_new _ _ Hx).
    rewrite IH.
    2:{ rewrite fmap_app, NoDup_app. split_and!; [done| |apply NoDup_singleton].
        intros k Hk ?%list_elem_of_singleton. simpl in *. by subst. }
    rewrite fmap_app, <- app_assoc. f_equal.
    + apply Forall_fmap_ext, Forall_forall. intros [k n] Hin. simpl.
      rewrite count_cons_ne; [done|]. intros ->.
      by apply (list_elem_of_fmap_2 fst) in Hin.
    + simpl. rewrite count_cons, bool_decide_eq_true_2 by done.
      f_equal.
      assert (list_to_set (c ++ [(x, 1)]).*1 =@{gset (list ascii)}
              {[x]} ∪ list_to_set c.*1) as ->.
      { rewrite fmap_app, list_to_set_app_L. simpl.
        rewrite (right_id_L ∅ (∪)). apply (comm_L (∪)). }
      apply Forall_fmap_ext, Forall_forall. intros k Hk.
      rewrite firsts_from_elem, not_elem_of_union, not_elem_of_singleton in Hk.
      rewrite count_cons_ne; [done|]. tauto.
Qed.

(** The counter lists every element once, in the order of first
    occurrence, with the number of its occurrences. *)
Lemma Counter_spec l :
  Counter l = (λ k, (k, count k l)) <$> firsts_from ∅ l.
Proof.
  unfold Counter. rewrite counter_foldl by constructor. done.
Qed.

(** [max] returns the first item with the largest count. *)
Lemma max_count_spec first items :
  ∃ a b, first :: items = a ++ max_count first items :: b
         ∧ Forall (λ it, it.2 < (max_count first items).2) a
         ∧ Forall (λ it, it.2 ≤ (max_count first items).2) b.
Proof.
  unfold max_count. revert first.
  induction items as [|it items IH]; intros first.
  { exists [], []. by repeat constructor. }
  cbn [foldl]. case_bool_decide as Hlt.
  - destruct (IH it) as (a & b & Heq & Ha & Hb).
    set (m := foldl _ it items) in *.
    exists (first :: a), b. split_and!; [by rewrite Heq| |done].
    constructor; [|done].
    destruct a as [|h a].
    + injection Heq as Hm _. by rewrite <- Hm.
    + injection Heq as -> _. apply Forall_cons in Ha as [? _]. lia.
  - destruct (IH first) as (a & b & Heq & Ha & Hb).
    set (m := foldl _ first items) in *.
    destruct a as [|h a].
    + injection Heq as Hm Hitems. exists [], (it :: b). split_and!.
      * simpl. by rewrite <- Hm, Hitems.
      * constructor.
      * constructor; [rewrite <- Hm; lia | done].
    + injection Heq as -> Hitems. exists (h :: it :: a), b. split_and!.
      * simpl. by rewrite Hitems.
      * apply Forall_cons in Ha as [? ?]. repeat constructor; [done|lia|done].
      * done.
Qed.

Lemma majority_winner_spec ext dom :
  majority_winner ext = Some dom →
  ∃ i, ext !! i = Some dom ∧
       ∀ d j, ext !! j = Some d →
              count d ext ≤ count dom ext ∧
              (count d ext = count dom ext → i ≤ j).
Proof.
  unfold majority_winner.
  destruct (Counter ext) as [|first items] eqn:HC; [done|].
  intros [= <-].
  destruct (max_count_spec first items) as (a & b & Heq & Ha & Hb).
  set (m := max_count first items) in *.
  rewrite <- HC, Counter_spec in Heq.
  apply fmap_app_inv in Heq as (Fa & F' & -> & Hcons & HF).
  symmetry in Hcons. apply fmap_cons_inv in Hcons as (k & Fb & Hm & -> & ->).
  rewrite Hm in *. simpl in *.
  destruct (firsts_from_order _ _ _ _ _ HF) as (i & Hi & Hfirst & Hlater).
  exists i. split; [done|]. intros d j Hj.
  assert (d ∈ Fa ∨ d = k ∨ d ∈ Fb) as [Hd|[->|Hd]].
  { assert (d ∈ firsts_from ∅ ext) as Hd.
    { rewrite firsts_from_elem. split; [by eapply list_elem_of_lookup_2|].
      set_solver. }
    rewrite HF, elem_of_app, elem_of_cons in Hd. tauto. }
  - rewrite Forall_fmap, Forall_forall in Ha. apply Ha in Hd. simpl in Hd. lia.
  - split; [done|]. intros _. by apply Hfirst.
  - rewrite Forall_fmap, Forall_forall in Hb. pose proof (Hb _ Hd) as Hle.
    simpl in Hle. split; [done|]. intros _.
    pose proof (Hlater _ _ Hd Hj). lia.
Qed.

Lemma majority_winner_elem ext dom :
  majority_winner ext = Some dom → dom ∈ ext.
Proof.
  intros (i & Hi & _)%majority_winner_spec. by eapply list_elem_of_lookup_2.
Qed.

End counter.

(* ===================================================================== *)
(** * The resolver *)
(* ===================================================================== *)

Section resolver_facts.
Implicit Types (nm environ : gmap (list ascii) (list ascii)).
Implicit Types (internal ignore : gset (list ascii)).
Implicit Types (d : list ascii) (doms ext prio : list (list ascii)).

Lemma priority_winner_None prio ext :
  priority_winner prio ext = None ↔ Forall (λ p, base_domain p ∉ ext) prio.
Proof.
  unfold priority_winner. induction prio as [|p prio IH]; [done|].
  rewrite fmap_cons, filter_cons, Forall_cons.
  destruct (decide (base_domain p ∈ ext)); simpl; [|tauto].
  split; [done|tauto].
Qed.

Lemma priority_winner_Some prio ext pb :
  priority_winner prio ext = Some pb →
  ∃ before p after,
    prio = before ++ p :: after ∧ pb = base_domain p ∧
    Forall (λ p', base_domain p' ∉ ext) before ∧ base_domain p ∈ ext.
Proof.
  unfold priority_winner. induction prio as [|p prio IH]; [done|].
  rewrite fmap_cons, filter_cons.
  destruct (decide (base_domain p ∈ ext)) as [Hp|Hp]; simpl.
  - intros [= <-]. by exists [], p, prio.
  - intros (before & p' & after & -> & -> & Hb & Hp')%IH.
    exists (p :: before), p', after. split_and!; [done..| |done].
    by constructor.
Qed.

Lemma priority_winner_found prio ext q :
  q ∈ prio → base_domain q ∈ ext → is_Some (priority_winner prio ext).
Proof.
  intros Hq Hext.
  destruct (priority_winner prio ext) eqn:E; [done|].
  rewrite priority_winner_None, Forall_forall in E. by destruct (E q).
Qed.

Lemma collect_domains_inv atts doms :
  collect_domains atts [] = Ok doms → doms = omap attendee_domain atts.
Proof. rewrite collect_domains_spec. by intros [= <-]. Qed.

Lemma attendee_domains_based atts :
  Forall (λ d, ∃ x, d = base_domain x) (omap attendee_domain atts).
Proof.
  apply Forall_forall. intros d (a & _ & Ha)%list_elem_of_omap.
  unfold attendee_domain in Ha.
  destruct (cut "@" (attendee_email a)) as [[x y]|]; simplify_eq/=. eauto.
Qed.

Lemma attendees_to_company_resolve environ atts s e doms :
  collect_domains (default [] atts) [] = Ok doms →
  ∃ nm, NAME_MAP environ = Ok nm ∧
        attendees_to_company environ atts s e
        = Ok (resolve nm (INTERNAL environ) (IGNORE environ)
                (PRIORITY environ) doms s e).
Proof.
  intros ->%collect_domains_inv.
  destruct (NAME_MAP_returns environ) as [nm Hnm].
  exists nm. split; [done|]. by apply attendees_to_company_spec.
Qed.

Lemma fallback_winner_external internal ignore doms :
  fallback_winner internal ignore doms = head (external internal ignore doms).
Proof. done. Qed.

(** The domain of what [resolve] returns: the winner of the first
    domain stage that has one, or nothing. *)
Lemma resolve_domain nm internal ignore prio doms s e :
  let ext := external internal ignore doms in
  companyDomain (resolve nm internal ignore prio doms s e)
  = match priority_winner prio ext with
    | Some pb => pb
    | None => default [] (majority_winner ext)
    end.
Proof.
  intros ext. unfold resolve. fold ext.
  destruct (priority_winner prio ext); [done|].
  destruct (majority_winner ext) eqn:Hm; [done|].
  apply majority_winner_nil in Hm. rewrite fallback_winner_external.
  fold ext. rewrite Hm. simpl.
  unfold text_guess, text_outcome.
  destruct (first_match (event_text s e)); simpl; [|done].
  by case_bool_decide.
Qed.

End resolver_facts.

(** C1: when some configured priority domain, normalized, occurs among
    the external domains, the resolver returns the first such entry of
    the priority list, normalized, as [companyDomain], whatever the
    counts of the other external domains. *)
Theorem priority_domain_wins environ atts s e doms q :
  collect_domains (default [] atts) [] = Ok doms →
  q ∈ PRIORITY environ →
  base_domain q ∈ external (INTERNAL environ) (IGNORE environ) doms →
  ∃ before p after g,
    PRIORITY environ = before ++ p :: after ∧
    Forall (λ p', base_domain p' ∉
                  external (INTERNAL environ) (IGNORE environ) doms) before ∧
    base_domain p ∈ external (INTERNAL environ) (IGNORE environ) doms ∧
    attendees_to_company environ atts s e = Ok g ∧
    companyDomain g = base_domain p.
Proof.
  intros Hdoms Hq Hext.
  destruct (attendees_to_company_resolve environ atts s e doms Hdoms)
    as (nm & _ & ->).
  destruct (priority_winner_found _ _ _ Hq Hext) as [pb Hpb].
  destruct (priority_winner_Some _ _ _ Hpb)
    as (before & p & after & Hprio & -> & Hbefore & Hp).
  exists before, p, after. eexists. split_and!; [done..|].
  by rewrite resolve_domain, Hpb.
Qed.

(** The example of the design document: externals [acme.com, acme.com,
    beta.com] with priority [beta.com]. *)
Lemma priority_domain_wins_witness :
  ∃ before p after g,
    PRIORITY {["DOMAIN_PRIORITY" := "beta.com"]} = before ++ p :: after ∧
    Forall (λ p', base_domain p' ∉
              external (INTERNAL {["DOMAIN_PRIORITY" := "beta.com"]})
                       (IGNORE {["DOMAIN_PRIORITY" := "beta.com"]})
                       ["acme.com"; "acme.com"; "beta.com"]) before ∧
    base_domain p ∈
      external (INTERNAL {["DOMAIN_PRIORITY" := "beta.com"]})
               (IGNORE {["DOMAIN_PRIORITY" := "beta.com"]})
               ["acme.com"; "acme.com"; "beta.com"] ∧
    attendees_to_company {["DOMAIN_PRIORITY" := "beta.com"]}
      (Some [AStr "ann@acme.com"; ADict (Some "bob@acme.com");
             AStr "carl@beta.com"]) None None = Ok g ∧
    companyDomain g = base_domain p.
Proof.
  apply (priority_domain_wins {["DOMAIN_PRIORITY" := "beta.com"]}
    (Some [AStr "ann@acme.com"; ADict (Some "bob@acme.com");
           AStr "carl@beta.com"]) None None
    ["acme.com"; "acme.com"; "beta.com"] "beta.com").
  - vm_compute. reflexivity.
  - vm_compute. left.
  - vm_compute. do 2 right. left.
Defined.

Example priority_beats_majority :
  attendees_to_company {["DOMAIN_PRIORITY" := "beta.com"]}
    (Some [AStr "ann@acme.com"; ADict (Some "bob@acme.com");
           AStr "carl@beta.com"]) None None
  = Ok {| companyName := "Beta"; companyDomain := "beta.com" |}.
Proof. vm_compute. reflexivity. Qed.

(** C2: with external domains and no priority match, the resolver
    returns a most frequent external domain, and among the domains tied
    for the highest count the one that occurs first: position [i] holds
    the winner, no domain occurs more often, and every occurrence of a
    domain with the same count is at [i] or later. *)
Theorem majority_domain_wins environ atts s e doms :
  collect_domains (default [] atts) [] = Ok doms →
  external (INTERNAL environ) (IGNORE environ) doms ≠ [] →
  Forall (λ p, base_domain p ∉
               external (INTERNAL environ) (IGNORE environ) doms)
         (PRIORITY environ) →
  ∃ g i,
    attendees_to_company environ atts s e = Ok g ∧
    external (INTERNAL environ) (IGNORE environ) doms !! i
      = Some (companyDomain g) ∧
    ∀ d j,
      external (INTERNAL environ) (IGNORE environ) doms !! j = Some d →
      count d (external (INTERNAL environ) (IGNORE environ) doms)
        ≤ count (companyDomain g)
                (external (INTERNAL environ) (IGNORE environ) doms) ∧
      (count d (external (INTERNAL environ) (IGNORE environ) doms)
         = count (companyDomain g)
                 (external (INTERNAL environ) (IGNORE environ) doms) →
       i ≤ j).
Proof.
  intros Hdoms Hext Hprio.
  destruct (attendees_to_company_resolve environ atts s e doms Hdoms)
    as (nm & _ & ->).
  set (ext := external (INTERNAL environ) (IGNORE environ) doms) in *.
  apply priority_winner_None in Hprio.
  destruct (majority_winner ext) as [dom|] eqn:Hm.
  2:{ by apply majority_winner_nil in Hm. }
  destruct (majority_winner_spec _ _ Hm) as (i & Hi & Hbest).
  eexists _, i. split; [done|].
  rewrite resolve_domain. fold ext. rewrite Hprio, Hm. simpl.
  split; [done|]. apply Hbest.
Qed.

(** The example of the design document: externals [a.com, b.com, a.com,
    b.com] and no priority list. *)
Lemma majority_domain_wins_witness :
  ∃ g i,
    attendees_to_company ∅
      (Some [AStr "x@a.com"; AStr "y@b.com"; AStr "z@a.com"; AStr "w@b.com"])
      None None = Ok g ∧
    external (INTERNAL ∅) (IGNORE ∅) ["a.com"; "b.com"; "a.com"; "b.com"] !! i
      = Some (companyDomain g) ∧
    ∀ d j,
      external (INTERNAL ∅) (IGNORE ∅) ["a.com"; "b.com"; "a.com"; "b.com"] !! j
        = Some d →
      count d (external (INTERNAL ∅) (IGNORE ∅)
                 ["a.com"; "b.com"; "a.com"; "b.com"])
        ≤ count (companyDomain g)
                (external (INTERNAL ∅) (IGNORE ∅)
                   ["a.com"; "b.com"; "a.com"; "b.com"]) ∧
      (count d (external (INTERNAL ∅) (IGNORE ∅)
                  ["a.com"; "b.com"; "a.com"; "b.com"])
         = count (companyDomain g)
                 (external (INTERNAL ∅) (IGNORE ∅)
                    ["a.com"; "b.com"; "a.com"; "b.com"]) →
       i ≤ j).
Proof.
  apply (majority_domain_wins ∅
    (Some [AStr "x@a.com"; AStr "y@b.com"; AStr "z@a.com"; AStr "w@b.com"])
    None None ["a.com"; "b.com"; "a.com"; "b.com"]).
  - vm_compute. reflexivity.
  - vm_compute. discriminate.
  - assert (PRIORITY ∅ = []) as -> by (vm_compute; reflexivity).
    constructor.
Defined.

Example majority_tie_goes_to_first :
  attendees_to_company ∅
    (Some [AStr "x@a.com"; AStr "y@b.com"; AStr "z@a.com"; AStr "w@b.com"])
    None None
  = Ok {| companyName := "A"; companyDomain := "a.com" |}.
Proof. vm_compute. reflexivity. Qed.

(** C8: stage 4 never finds anything.  When the majority stage falls
    through, the scan of the unfiltered list falls through as well, so
    the resolver without stage 4 returns, on every input, what the
    resolver returns. *)
Theorem stage4_is_dead_code :
  (∀ nm internal ignore doms,
     majority_stage nm (external internal ignore doms) = Ok None →
     fallback_stage nm internal ignore doms = Ok None) ∧
  (∀ environ atts s e,
     attendees_to_company_without_stage4 environ atts s e
     = attendees_to_company environ atts s e).
Proof.
  assert (∀ nm internal ignore doms,
     majority_stage nm (external internal ignore doms) = Ok None →
     fallback_stage nm internal ignore doms = Ok None) as Hdead.
  { intros nm internal ignore doms. rewrite majority_stage_spec.
    destruct (majority_winner _) eqn:Hm; [done|]. intros _.
    apply majority_winner_nil in Hm.
    rewrite fallback_stage_spec, fallback_winner_external. by rewrite Hm. }
  split; [exact Hdead|].
  intros environ atts s e.
  unfold attendees_to_company_without_stage4, attendees_to_company.
  destruct (NAME_MAP environ) as [nm|]; [|done]. simpl.
  destruct (collect_domains (default [] atts) []) as [doms|]; [|done]. simpl.
  unfold or_continue.
  destruct (priority_stage nm _ _) as [[g|]|];
    cbn [mbind result_bind]; [done| |done].
  destruct (majority_stage nm _) as [[g|]|] eqn:Hm;
    cbn [mbind result_bind]; [done| |done].
  by rewrite (Hdead _ _ _ _ Hm).
Qed.

Lemma stage4_is_dead_code_witness :
  fallback_stage ∅ (INTERNAL ∅) (IGNORE ∅) ["gmail.com"; ""; "zoom.us"]
  = Ok None.
Proof.
  apply (proj1 stage4_is_dead_code). vm_compute. reflexivity.
Defined.

(** C10: the resolver always returns, and the [companyDomain] it returns
    is empty or a base domain; in either case it is in lower case and
    holds no [@]. *)
Theorem company_domain_normalized environ atts s e :
  ∃ g, attendees_to_company environ atts s e = Ok g ∧
       (companyDomain g = [] ∨ ∃ x, companyDomain g = base_domain x) ∧
       lower (companyDomain g) = companyDomain g ∧
       "@"%char ∉ companyDomain g.
Proof.
  destruct (NAME_MAP_returns environ) as [nm Hnm].
  rewrite (attendees_to_company_spec _ _ _ _ _ Hnm).
  eexists. split; [done|]. rewrite resolve_domain.
  set (doms := omap attendee_domain (default [] atts)).
  set (ext := external (INTERNAL environ) (IGNORE environ) doms).
  assert (∀ d, d ∈ ext → ∃ x, d = base_domain x) as Hext.
  { intros d [_ Hd]%list_elem_of_filter.
    pose proof (attendee_domains_based (default [] atts)) as Hb.
    rewrite Forall_forall in Hb. by apply Hb. }
  assert (∀ d, (d = [] ∨ ∃ x, d = base_domain x) →
          (d = [] ∨ ∃ x, d = base_domain x) ∧ lower d = d ∧ "@"%char ∉ d)
    as Hnorm.
  { intros d Hd. split; [done|]. destruct Hd as [->|[x ->]].
    - split; [done|]. apply not_elem_of_nil.
    - split; [apply lowered_lower, base_domain_lowered
             |apply base_domain_no_at]. }
  apply Hnorm.
  destruct (priority_winner _ ext) as [pb|] eqn:Hp.
  - apply priority_winner_Some in Hp as (? & p & ? & _ & -> & _). eauto.
  - destruct (majority_winner ext) as [dom|] eqn:Hm; [|by left].
    right. apply Hext. by eapply majority_winner_elem.
Qed.

Section winners.
Implicit Types (nm environ : gmap (list ascii) (list ascii)).
Implicit Types (internal ignore : gset (list ascii)).
Implicit Types (d : list ascii) (doms ext prio : list (list ascii)).

Lemma external_elem internal ignore doms d :
  d ∈ external internal ignore doms ↔ is_external internal ignore d ∧ d ∈ doms.
Proof. apply list_elem_of_filter. Qed.

(** What [resolve] returns: the guess for a non-empty external domain,
    or a guess with no domain. *)
Lemma resolve_cases nm internal ignore prio doms s e :
  (∃ w, resolve nm internal ignore prio doms s e = guess nm w ∧
        w ∈ external internal ignore doms) ∨
  companyDomain (resolve nm internal ignore prio doms s e) = [].
Proof.
  unfold resolve. set (ext := external internal ignore doms).
  destruct (priority_winner prio ext) as [pb|] eqn:Hp.
  { left. exists pb. split; [done|].
    by apply priority_winner_Some in Hp as (? & p & ? & _ & -> & _ & ?). }
  destruct (majority_winner ext) as [dom|] eqn:Hm.
  { left. exists dom. split; [done|]. by eapply majority_winner_elem. }
  right. apply majority_winner_nil in Hm.
  rewrite fallback_winner_external. fold ext. rewrite Hm. simpl.
  unfold text_guess, text_outcome.
  destruct (first_match (event_text s e)); simpl; [|done].
  by case_bool_decide.
Qed.


Lemma no_email_domain a : no_email a → attendee_domain a = None.
Proof.
  intros Ha. unfold attendee_domain.
  rewrite cut_None; [done|].
  assert (∀ t, "@"%char ∉ t → "@"%char ∉ strip (lower t)) as Hkeep.
  { intros t Ht Hin.
    assert (Forall (λ c, c ≠ "@"%char) (strip (lower t))) as HF.
    { apply strip_Forall. unfold lower. apply Forall_fmap, Forall_forall.
      intros c Hc Heq. simpl in Heq. apply lower_char_at in Heq. by subst. }
    rewrite Forall_forall in HF. by apply (HF _ Hin). }
  destruct a as [[email|]|t|t]; simpl in *; try by apply Hkeep.
  apply not_elem_of_nil.
Qed.

Lemma split_join c l :
  Forall (λ p, c ∉ p) l → l ≠ [] → split c (join [c] l) = l.
Proof.
  induction 1 as [|p l Hp Hl IH]; [done|]. intros _.
  destruct l as [|q l]; [by apply split_without|].
  change (join [c] (p :: q :: l)) with (p ++ c :: join [c] (q :: l)).
  rewrite split_app_sep by done. by rewrite IH.
Qed.


End winners.



Example pretty_from_mixed_case :
  pretty_from_domain "aCME.com" = Ok "Acme" ∧
  pretty_from_domain ".com" = Ok "Unknown".
Proof. split; vm_compute; reflexivity. Qed.

Section unvetted.
Implicit Types (a : Unvetted.entry) (l : list Unvetted.entry).
Implicit Types (acc : list (list ascii)).







End unvetted.




(* ===================================================================== *)
(** * Letter case in the patterns *)
(* ===================================================================== *)

Section ignorecase.
Implicit Types (r : regex) (s t : list ascii) (g : option (list ascii)).

Lemma same_case_cons_inv c s c' s' :
  same_up_to_case (c :: s) (c' :: s') →
  lower_char c = lower_char c' ∧ same_up_to_case s s'.
Proof. unfold same_up_to_case, lower. csimpl. by intros [= ? ?]. Qed.

Lemma same_case_nil_inv s : same_up_to_case [] s → s = [].
Proof.
  unfold same_up_to_case. intros H. symmetry in H. by apply lower_nil_inv in H.
Qed.

Lemma same_case_length s s' : same_up_to_case s s' → length s = length s'.
Proof.
  unfold same_up_to_case, lower. intros H.
  by rewrite <- (length_fmap lower_char s), H, length_fmap.
Qed.

Lemma same_case_take n s s' :
  same_up_to_case s s' → same_up_to_case (take n s) (take n s').
Proof.
  unfold same_up_to_case, lower. intros H. by rewrite !fmap_take, H.
Qed.

Lemma char_match_ignorecase x c c' :
  lower_char c = lower_char c' → char_match true x c = char_match true x c'.
Proof. unfold char_match. by intros ->. Qed.

Lemma upper_char_same c c' :
  lower_char c = lower_char c' → upper_char c = upper_char c'.
Proof.
  intros H. by rewrite <- (upper_lower_char c), H, upper_lower_char.
Qed.

Lemma cset_match_ignorecase m c c' :
  lower_char c = lower_char c' → cset_match true m c = cset_match true m c'.
Proof.
  intros H. destruct m as [lo hi|x|]; simpl.
  - pose proof (upper_char_same _ _ H) as Hu.
    rewrite <- H, <- Hu.
    destruct (lower_or_upper_char c) as [Hc|Hc],
             (lower_or_upper_char c') as [Hc'|Hc'].
    + rewrite Hc at 1. rewrite Hc' at 1. by rewrite H.
    + rewrite Hc at 1. rewrite Hc' at 1. rewrite <- Hu.
      destruct (in_range lo hi (lower_char c)),
               (in_range lo hi (upper_char c)); done.
    + rewrite Hc at 1. rewrite Hc' at 1. rewrite <- H.
      destruct (in_range lo hi (lower_char c)),
               (in_range lo hi (upper_char c)); done.
    + rewrite Hc at 1. rewrite Hc' at 1. by rewrite Hu.
  - by apply char_match_ignorecase.
  - by rewrite <- (is_space_lower_char c), H, is_space_lower_char.
Qed.

Lemma set_match_ignorecase cs c c' :
  lower_char c = lower_char c' → set_match true cs c = set_match true cs c'.
Proof.
  intros H. unfold set_match. induction cs as [|m cs IH]; [done|].
  simpl. by rewrite IH, (cset_match_ignorecase m c c' H).
Qed.

Context {R : Type} (Q : R → R → Prop).

Lemma orelse_agree (a a' b b' : option R) :
  option_Forall2 Q a a' → option_Forall2 Q b b' →
  option_Forall2 Q (match a with Some m => Some m | None => b end)
                   (match a' with Some m => Some m | None => b' end).
Proof. destruct 1; [by constructor|done]. Qed.

Lemma rep_ignorecase p p' min s s' k k' :
  (∀ c c', lower_char c = lower_char c' → p c = p' c') →
  same_up_to_case s s' → agree1 Q k k' →
  option_Forall2 Q (rep p min s k) (rep p' min s' k').
Proof.
  intros Hp Hs Hk. revert s' Hs min.
  induction s as [|c s IH]; intros s' Hs min.
  - apply same_case_nil_inv in Hs as ->. simpl.
    destruct min; [by apply Hk|constructor].
  - destruct s' as [|c' s'].
    { symmetry in Hs. by apply same_case_nil_inv in Hs. }
    pose proof Hs as [Hc Hs']%same_case_cons_inv.
    assert (option_Forall2 Q
              (match min with O => k (c :: s) | S _ => None end)
              (match min with O => k' (c' :: s') | S _ => None end)) as Hstop.
    { destruct min; [by apply Hk|constructor]. }
    simpl. rewrite (Hp c c' Hc). destruct (p' c'); [|done].
    apply orelse_agree; [by apply IH|done].
Qed.

Lemma bt_ignorecase r s s' g g' k k' :
  same_up_to_case s s' → lower <$> g = lower <$> g' → agree2 Q k k' →
  option_Forall2 Q (bt true r s g k) (bt true r s' g' k').
Proof.
  revert s s' g g' k k'.
  induction r as [|x|cs|r1 IH1 r2 IH2|r1 IH1 r2 IH2|cs min|r1 IH1];
    intros s s' g g' k k' Hs Hg Hk; cbn [bt].
  - by apply Hk.
  - destruct s as [|c s], s' as [|c' s'];
      try (by apply same_case_nil_inv in Hs);
      try (symmetry in Hs; by apply same_case_nil_inv in Hs);
      [constructor|].
    apply same_case_cons_inv in Hs as [Hc Hs].
    rewrite (char_match_ignorecase x c c' Hc).
    destruct (char_match true x c'); [by apply Hk|constructor].
  - destruct s as [|c s], s' as [|c' s'];
      try (by apply same_case_nil_inv in Hs);
      try (symmetry in Hs; by apply same_case_nil_inv in Hs);
      [constructor|].
    apply same_case_cons_inv in Hs as [Hc Hs].
    rewrite (set_match_ignorecase cs c c' Hc).
    destruct (set_match true cs c'); [by apply Hk|constructor].
  - apply IH1; [done..|]. intros t t' h h' Ht Hh. by apply IH2.
  - apply orelse_agree; [by apply IH1 | by apply IH2].
  - apply rep_ignorecase; [apply set_match_ignorecase|done|].
    intros t t' Ht. by apply Hk.
  - apply IH1; [done..|]. intros t t' _ _ Ht _. apply Hk; [done|].
    simpl. f_equal. rewrite (same_case_length _ _ Hs), (same_case_length _ _ Ht).
    by apply same_case_take.
Qed.

End ignorecase.

Lemma search_ignorecase r : case_insensitive (search true r).
Proof.
  intros t. induction t as [|c t IH]; intros t' Ht.
  - apply same_case_nil_inv in Ht as ->. simpl.
    destruct (match_here true r []); by constructor.
  - destruct t' as [|c' t'].
    { symmetry in Ht. by apply same_case_nil_inv in Ht. }
    pose proof Ht as [_ Ht']%same_case_cons_inv.
    cbn [search]. apply orelse_agree; [|by apply IH].
    unfold match_here. apply bt_ignorecase; [done..|].
    intros ? ? h h' _ Hh. by constructor.
Qed.

(** The phrase of the third pattern starts with an upper-case letter. *)
Lemma match_paren_upper s m :
  match_here false PAT_PAREN s = Some m →
  ∃ c rest, group1 m = Some (c :: rest) ∧ is_upper c = true.
Proof.
  unfold match_here, PAT_PAREN, PHRASE.
  cbn [bt]. destruct s as [|c0 s]; [done|].
  destruct (char_match false "(" c0); [|done].
  destruct s as [|c s]; [done|].
  destruct (set_match false [CRange "A" "Z"] c) eqn:Hc; [|done].
  intros (s2 & Hk & Hsuf)%rep_inv.
  destruct s2 as [|c2 s2]; [done|].
  destruct (char_match false ")" c2); [|done].
  injection Hk as <-. cbn [group1].
  apply suffix_length in Hsuf. cbn [length] in *.
  destruct (length s - length s2) as [|n] eqn:Hn; [lia|].
  cbn [take]. eexists _, _. split; [done|].
  unfold set_match in Hc. simpl in Hc.
  rewrite !orb_false_r in Hc. done.
Qed.

Lemma search_paren_upper t m :
  search_paren t = Some m →
  ∃ c rest, group1 m = Some (c :: rest) ∧ is_upper c = true.
Proof.
  unfold search_paren. induction t as [|c t IH]; cbn [search].
  - destruct (match_here false PAT_PAREN []) eqn:E; [|done].
    intros [= <-]. by eapply match_paren_upper.
  - destruct (match_here false PAT_PAREN (c :: t)) eqn:E; [|done].
    intros [= <-]. by eapply match_paren_upper.
Qed.

(* ===================================================================== *)
(** * The text fallback *)
(* ===================================================================== *)

Lemma resolve_no_external nm internal ignore prio doms s e :
  external internal ignore doms = [] →
  resolve nm internal ignore prio doms s e = default UNKNOWN (text_guess s e).
Proof.
  intros Hext. unfold resolve. rewrite fallback_winner_external, Hext.
  assert (priority_winner prio [] = None) as ->.
  { apply priority_winner_None, Forall_forall. intros p _.
    apply not_elem_of_nil. }
  done.
Qed.

Lemma text_fallback environ atts s e doms :
  collect_domains (default [] atts) [] = Ok doms →
  external (INTERNAL environ) (IGNORE environ) doms = [] →
  attendees_to_company environ atts s e = Ok (default UNKNOWN (text_guess s e)).
Proof.
  intros Hdoms Hext.
  destruct (attendees_to_company_resolve environ atts s e doms Hdoms)
    as (nm & _ & ->).
  by rewrite resolve_no_external.
Qed.

(** C4: in the text fallback the first pattern that matches decides.
    When the patterns before it find nothing and what it captured,
    stripped and in lower case, is a stop word, the resolver returns the
    Unknown result whatever the patterns after it would find; so it does
    for the text [POC: Demo]. *)
Theorem stop_word_ends_text_fallback :
  (∀ environ atts s e doms i f m g,
     collect_domains (default [] atts) [] = Ok doms →
     external (INTERNAL environ) (IGNORE environ) doms = [] →
     [search_with_for; search_poc; search_paren] !! i = Some f →
     (∀ j f', j < i →
        [search_with_for; search_poc; search_paren] !! j = Some f' →
        f' (event_text s e) = None) →
     f (event_text s e) = Some m →
     group1 m = Some g →
     lower (strip g) ∈ STOP_WORDS →
     attendees_to_company environ atts s e = Ok UNKNOWN) ∧
  attendees_to_company ∅ None (Some "POC: Demo") None = Ok UNKNOWN.
Proof.
  split; [|vm_compute; reflexivity].
  intros environ atts s e doms i f m g Hdoms Hext Hi Hbefore Hm Hg Hstop.
  rewrite (text_fallback _ _ _ _ _ Hdoms Hext). f_equal.
  assert (first_match (event_text s e) = Some m) as Hfirst.
  { unfold first_match, py_or.
    destruct i as [|[|[|i]]]; simplify_eq/=.
    - by rewrite Hm.
    - rewrite (Hbefore 0 search_with_for) by (done || lia). by rewrite Hm.
    - rewrite (Hbefore 0 search_with_for) by (done || lia).
      rewrite (Hbefore 1 search_poc) by (done || lia). done. }
  unfold text_guess. rewrite Hfirst. simpl.
  unfold text_outcome. rewrite Hg. simpl.
  by rewrite bool_decide_eq_false_2 by (by intros ?).
Qed.

(** The second pattern captures the stop word; the third pattern, which
    would find [Acme], is not consulted. *)
Lemma stop_word_ends_text_fallback_witness :
  attendees_to_company ∅ None (Some "POC: Demo (Acme)") None = Ok UNKNOWN
  ∧ search_paren (event_text (Some "POC: Demo (Acme)") None)
    = Some {| group1 := Some "Acme" |}.
Proof.
  split; [|vm_compute; reflexivity].
  apply (proj1 stop_word_ends_text_fallback ∅ None
           (Some "POC: Demo (Acme)") None [] 1 search_poc
           {| group1 := Some "Demo " |} "Demo ").
  - reflexivity.
  - reflexivity.
  - reflexivity.
  - intros [|j] f' Hj Hf'; [|lia]. injection Hf' as <-.
    vm_compute. reflexivity.
  - vm_compute. reflexivity.
  - reflexivity.
  - vm_compute. do 3 right. left.
Defined.

(** C5, as stated, fails: the third pattern sees letter case.  The text
    [(acme)] gives the Unknown result where [(Acme)] gives [Acme]. *)
Lemma third_pattern_is_case_sensitive :
  ¬ (case_insensitive search_with_for ∧ case_insensitive search_poc
     ∧ case_insensitive search_paren)
  ∧ attendees_to_company ∅ None (Some "(acme)") None = Ok UNKNOWN
  ∧ attendees_to_company ∅ None (Some "(Acme)") None
    = Ok {| companyName := "Acme"; companyDomain := "" |}.
Proof.
  split_and!; [|vm_compute; reflexivity..].
  intros (_ & _ & H).
  specialize (H "(acme)" "(Acme)" eq_refl).
  vm_compute in H. inversion H.
Qed.

(** C5 (amended): without domain evidence the resolver decides from the
    first of the three searches that succeeds on the summary and the
    description joined by one space; the first two searches do not see
    letter case; the third does, and the phrase it finds starts with an
    upper-case letter. *)
Theorem text_patterns_in_order :
  (∀ environ atts s e doms,
     collect_domains (default [] atts) [] = Ok doms →
     external (INTERNAL environ) (IGNORE environ) doms = [] →
     attendees_to_company environ atts s e
     = Ok (default UNKNOWN
             (py_or (search_with_for (default [] s ++ " " ++ default [] e))
                (py_or (search_poc (default [] s ++ " " ++ default [] e))
                       (search_paren (default [] s ++ " " ++ default [] e)))
              ≫= text_outcome))) ∧
  case_insensitive search_with_for ∧
  case_insensitive search_poc ∧
  (∀ t m, search_paren t = Some m →
          ∃ c rest, group1 m = Some (c :: rest) ∧ is_upper c = true).
Proof.
  split_and!.
  - intros environ atts s e doms Hdoms Hext.
    by rewrite (text_fallback _ _ _ _ _ Hdoms Hext).
  - apply search_ignorecase.
  - apply search_ignorecase.
  - apply search_paren_upper.
Qed.

Lemma text_patterns_in_order_witness :
  attendees_to_company ∅ (Some [AStr "me@gmail.com"])
    (Some "kickoff WITH beta corp") None
  = Ok (default UNKNOWN
          (py_or (search_with_for ("kickoff WITH beta corp" ++ " " ++ ""))
             (py_or (search_poc ("kickoff WITH beta corp" ++ " " ++ ""))
                    (search_paren ("kickoff WITH beta corp" ++ " " ++ "")))
           ≫= text_outcome)).
Proof.
  apply (proj1 text_patterns_in_order ∅ (Some [AStr "me@gmail.com"])
           (Some "kickoff WITH beta corp") None ["gmail.com"]).
  - vm_compute. reflexivity.
  - vm_compute. reflexivity.
Defined.

Example text_fallback_ignores_case :
  attendees_to_company ∅ (Some [AStr "me@gmail.com"])
    (Some "kickoff WITH beta corp") None
  = Ok {| companyName := "beta corp"; companyDomain := "" |}.
Proof. vm_compute. reflexivity. Qed.

(* ===================================================================== *)
(** * The e-mails of an event *)
(* ===================================================================== *)

Section emails.
Implicit Types (emails out l : list (list ascii)) (seen : gset (list ascii)).

Lemma dedup_loop_spec emails out seen :
  dedup_loop emails out seen = out ++ firsts_from seen emails.
Proof.
  revert out seen. induction emails as [|em emails IH]; intros out seen.
  { simpl. by rewrite app_nil_r. }
  cbn [dedup_loop firsts_from]. case_bool_decide as Hin.
  - rewrite bool_decide_eq_false_2 by done.
    rewrite IH. by rewrite <- app_assoc.
  - rewrite bool_decide_eq_true_2 by done. apply IH.
Qed.

Lemma attendee_emails_lowered atts emails :
  Forall lowered emails → Forall lowered (attendee_emails atts emails).
Proof.
  revert emails. induction atts as [|a atts IH]; intros emails H; [done|].
  destruct a as [email|t|t]; cbn [attendee_emails].
  - case_bool_decide; apply IH; [|done].
    apply Forall_app. split; [done|]. repeat constructor. apply lower_lowered.
  - apply IH, Forall_app. split; [done|].
    repeat constructor. apply lower_lowered.
  - by apply IH.
Qed.

Lemma person_emails_lowered ps emails :
  Forall lowered emails → Forall lowered (person_emails ps emails).
Proof.
  revert emails. induction ps as [|p ps IH]; intros emails H; [done|].
  cbn [person_emails]. case_bool_decide; apply IH; [|done].
  apply Forall_app. split; [done|]. repeat constructor. apply lower_lowered.
Qed.

Lemma event_emails_lowered e : Forall lowered (event_emails e).
Proof.
  unfold event_emails. by apply person_emails_lowered, attendee_emails_lowered.
Qed.

(** The two collecting loops append, in order, the addresses of the
    entries they go through. *)
Lemma attendee_emails_spec atts emails :
  attendee_emails atts emails = emails ++ omap attendee_address atts.
Proof.
  revert emails. induction atts as [|a atts IH]; intros emails.
  { by rewrite app_nil_r. }
  destruct a as [email|t|t]; cbn [attendee_emails omap list_omap attendee_address].
  - cbv zeta. case_bool_decide as Hem.
    + rewrite bool_decide_eq_false_2 by done. by rewrite IH, <- app_assoc.
    + rewrite bool_decide_eq_true_2 by done. apply IH.
  - by rewrite IH, <- app_assoc.
  - apply IH.
Qed.

Lemma person_emails_spec ps emails :
  person_emails ps emails = emails ++ omap person_address ps.
Proof.
  revert emails. induction ps as [|info ps IH]; intros emails.
  { by rewrite app_nil_r. }
  cbn [person_emails omap list_omap]. cbv zeta.
  destruct info as [[[email|]]|]; cbn; try apply IH.
  case_bool_decide as Hem.
  - rewrite bool_decide_eq_false_2 by done. by rewrite IH, <- app_assoc.
  - rewrite bool_decide_eq_true_2 by done. apply IH.
Qed.

Lemma event_emails_spec e :
  event_emails e
  = omap attendee_address (default [] (attendees e))
    ++ omap person_address [organizer e; creator e].
Proof.
  unfold event_emails. cbv zeta.
  by rewrite person_emails_spec, attendee_emails_spec.
Qed.

End emails.

(** C9: [collect_event_emails] returns the addresses of the event, that
    is those of its attendee entries, then of its organizer, then of
    its creator ([addrs] below), in lower case and each once: no two
    entries are equal up to letter case, an address is returned exactly
    when an attendee entry, the organizer or the creator has it, and the
    entries stand in the order in which they first occur among the
    addresses of the event. *)
Theorem collect_event_emails_ordered (e : event) :
  let addrs :=
    omap attendee_address (default [] (attendees e))
    ++ omap person_address [organizer e; creator e] in
  (∀ x, x ∈ collect_event_emails e → lower x = x) ∧
  (∀ i j x y,
     collect_event_emails e !! i = Some x →
     collect_event_emails e !! j = Some y →
     lower x = lower y → i = j) ∧
  (∀ x, x ∈ collect_event_emails e ↔
        (∃ a, a ∈ default [] (attendees e) ∧ attendee_address a = Some x) ∨
        person_address (organizer e) = Some x ∨
        person_address (creator e) = Some x) ∧
  (∀ i j x y,
     collect_event_emails e !! i = Some x →
     collect_event_emails e !! j = Some y →
     i < j →
     ∃ p, addrs !! p = Some x ∧
          (∀ q, addrs !! q = Some x → p ≤ q) ∧
          (∀ q, addrs !! q = Some y → p < q)).
Proof.
  intros addrs. unfold collect_event_emails.
  rewrite dedup_loop_spec, app_nil_l.
  pose proof (event_emails_lowered e) as Hlowered.
  rewrite event_emails_spec. rewrite event_emails_spec in Hlowered.
  fold addrs. fold addrs in Hlowered.
  assert (∀ x, x ∈ firsts_from ∅ addrs ↔ x ∈ addrs) as Hsame.
  { intros x. rewrite firsts_from_elem. split; [tauto|].
    intros ?. split; [done|]. apply not_elem_of_empty. }
  assert (∀ x, x ∈ firsts_from ∅ addrs → lower x = x) as Hlow.
  { intros x Hx%Hsame. apply lowered_lower.
    rewrite Forall_forall in Hlowered. by apply Hlowered. }
  split_and!; [done| | |].
  - intros i j x y Hi Hj Hxy.
    rewrite (Hlow x), (Hlow y) in Hxy by by eapply list_elem_of_lookup_2.
    subst y. eapply NoDup_lookup; [apply firsts_from_NoDup|done..].
  - intros x. rewrite Hsame. unfold addrs.
    rewrite elem_of_app, list_elem_of_omap. cbn [omap list_omap].
    assert (∀ o : option (list ascii),
              x ∈ from_option (λ y, [y]) [] o ↔ o = Some x) as Hone.
    { intros [y|]; cbn.
      - rewrite list_elem_of_singleton. split; congruence.
      - rewrite elem_of_nil. split; [tauto|done]. }
    destruct (person_address (organizer e)) as [o|] eqn:Ho;
      destruct (person_address (creator e)) as [c|] eqn:Hc;
      rewrite ?elem_of_cons, ?elem_of_nil;
      split; intros H; repeat destruct H as [H|H];
        try tauto; try (right; tauto); try congruence;
        try (right; left; congruence); try (right; right; congruence);
        try (right; left; left; congruence);
        try (right; right; left; congruence);
        try (injection H as ->; tauto).
  - intros i j x y Hi Hj Hij.
    pose proof (take_drop_middle _ _ _ Hi) as Hsplit. symmetry in Hsplit.
    destruct (firsts_from_order _ _ _ _ _ Hsplit) as (p & Hp & Hfirst & Hlater).
    exists p. split_and!; [done..|]. intros q Hq.
    apply (Hlater y); [|done].
    apply list_elem_of_lookup. exists (j - S i).
    rewrite lookup_drop. by replace (S i + (j - S i)) with j by lia.
Qed.

Lemma collect_event_emails_ordered_witness :
  let e :=
    {| attendees := Some [ADict (Some " Jane@Acme.com "); AStr "BOB@x.com";
                          AOther "5"; ADict None; AStr "jane@acme.com"];
       organizer := Some {| person_email := Some "bob@X.com" |};
       creator := Some {| person_email := Some "Zed@x.com" |} |} in
  let addrs :=
    omap attendee_address (default [] (attendees e))
    ++ omap person_address [organizer e; creator e] in
  "zed@x.com" ∈ collect_event_emails e ∧
  ∃ p, addrs !! p = Some "jane@acme.com" ∧
       (∀ q, addrs !! q = Some "jane@acme.com" → p ≤ q) ∧
       (∀ q, addrs !! q = Some "bob@x.com" → p < q).
Proof.
  intros e addrs. split.
  - apply (proj1 (proj2 (proj2 (collect_event_emails_ordered e)))).
    right. right. vm_compute. reflexivity.
  - apply (proj2 (proj2 (proj2 (collect_event_emails_ordered e)))
             0 1 "jane@acme.com" "bob@x.com").
    + vm_compute. reflexivity.
    + vm_compute. reflexivity.
    + lia.
Defined.

Example collect_event_emails_example :
  collect_event_emails
    {| attendees := Some [ADict (Some " Jane@Acme.com "); AStr "BOB@x.com";
                          AOther "5"; ADict None; AStr "jane@acme.com"];
       organizer := Some {| person_email := Some "bob@X.com" |};
       creator := Some {| person_email := Some "Zed@x.com" |} |}
  = ["jane@acme.com"; "bob@x.com"; "zed@x.com"].
Proof. vm_compute. reflexivity. Qed.

(* ===================================================================== *)
(** * Further properties: normalization and configuration *)
(* ===================================================================== *)

Section strip_facts.
Implicit Types (s t : list ascii) (c : ascii).

Lemma lstrip_head s c r : lstrip s = c :: r → is_space c = false.
Proof.
  induction s as [|x s IH]; [done|]. simpl.
  destruct (is_space x) eqn:Hx; [done|]. by intros [= <- _].
Qed.

Lemma lstrip_fixed c s : is_space c = false → lstrip (c :: s) = c :: s.
Proof. intros H. simpl. by rewrite H. Qed.

Lemma lstrip_snoc s c : is_space c = false → lstrip (s ++ [c]) = lstrip s ++ [c].
Proof.
  intros Hc. induction s as [|x s IH]; simpl; [by rewrite Hc|].
  by destruct (is_space x).
Qed.

Lemma lstrip_idem s : lstrip (lstrip s) = lstrip s.
Proof.
  destruct (lstrip s) as [|c r] eqn:E; [done|].
  apply lstrip_fixed. by eapply lstrip_head.
Qed.

Lemma rstrip_snoc s c : is_space c = false → rstrip (s ++ [c]) = s ++ [c].
Proof.
  intros Hc. unfold rstrip. rewrite reverse_snoc, lstrip_fixed by done.
  by rewrite reverse_cons, reverse_involutive.
Qed.

Lemma rstrip_cons c s : is_space c = false → ∃ r, rstrip (c :: s) = c :: r.
Proof.
  intros Hc. unfold rstrip. rewrite reverse_cons, lstrip_snoc by done.
  rewrite reverse_snoc. eauto.
Qed.

(** Either nothing is left, or what is left starts and ends with a
    character that is not white space. *)
Lemma strip_shape s :
  strip s = [] ∨
  ∃ c r, strip s = c :: r ∧ is_space c = false ∧
         ∃ r' c', strip s = r' ++ [c'] ∧ is_space c' = false.
Proof.
  unfold strip. destruct (lstrip s) as [|c t] eqn:E; [by left|].
  right. pose proof (lstrip_head _ _ _ E) as Hc.
  destruct (rstrip_cons c t Hc) as [r Hr]. exists c, r. split_and!; [done..|].
  unfold rstrip in *.
  destruct (lstrip (reverse (c :: t))) as [|c' u] eqn:E'.
  { by rewrite reverse_nil in Hr. }
  exists (reverse u), c'. split; [by rewrite reverse_cons|].
  by eapply lstrip_head.
Qed.

Lemma strip_idem s : strip (strip s) = strip s.
Proof.
  destruct (strip_shape s) as [->|(c & r & Hs & Hc & r' & c' & Hs' & Hc')];
    [done|].
  unfold strip at 1. rewrite Hs at 1. rewrite (lstrip_fixed _ _ Hc).
  rewrite <- Hs, Hs'. by apply rstrip_snoc.
Qed.

Lemma lstrip_lower s : lstrip (lower s) = lower (lstrip s).
Proof.
  induction s as [|c s IH]; [done|].
  change (lower (c :: s)) with (lower_char c :: lower s). cbn [lstrip].
  rewrite is_space_lower_char. by destruct (is_space c).
Qed.

Lemma lower_reverse s : lower (reverse s) = reverse (lower s).
Proof. apply fmap_reverse. Qed.

Lemma strip_lower s : strip (lower s) = lower (strip s).
Proof.
  unfold strip, rstrip.
  by rewrite lstrip_lower, <- lower_reverse, lstrip_lower, lower_reverse.
Qed.

Lemma strip_elem c s : c ∈ strip s → c ∈ s.
Proof.
  intros H. assert (Forall (λ x, x ∈ s) (strip s)) as HF.
  { apply strip_Forall, Forall_forall. auto. }
  rewrite Forall_forall in HF. auto.
Qed.

End strip_facts.

(** X1: a domain the resolver returns is one that an attendee's address
    gives, and it is neither an internal nor an ignored domain. *)
Theorem returned_domain_is_external environ atts s e g :
  attendees_to_company environ atts s e = Ok g →
  companyDomain g ≠ [] →
  (companyDomain g ∉ INTERNAL environ) ∧
  (companyDomain g ∉ IGNORE environ) ∧
  ∃ a local dom,
    a ∈ default [] atts ∧
    attendee_email a = local ++ "@"%char :: dom ∧
    companyDomain g = base_domain dom.
Proof.
  intros Hg Hdom.
  destruct (NAME_MAP_returns environ) as [nm Hnm].
  rewrite (attendees_to_company_spec _ _ _ _ _ Hnm) in Hg.
  injection Hg as <-.
  destruct (resolve_cases nm (INTERNAL environ) (IGNORE environ)
              (PRIORITY environ) (omap attendee_domain (default [] atts)) s e)
    as [(w & Hw & Hext)|Hnil]; [|done].
  rewrite Hw. simpl.
  apply external_elem in Hext as [(_ & Hint & Hign) Hin].
  split_and!; [done..|].
  apply list_elem_of_omap in Hin as (a & Ha & Hd).
  unfold attendee_domain in Hd.
  destruct (cut "@" (attendee_email a)) as [[local dom]|] eqn:Hcut;
    simplify_eq/=.
  exists a, local, dom. split_and!; [done| |done].
  assert ("@"%char ∈ attendee_email a) as Hat.
  { destruct (decide ("@"%char ∈ attendee_email a)) as [|Hn]; [done|].
    by rewrite (cut_None _ _ Hn) in Hcut. }
  destruct (cut_Some _ _ Hat) as (x & y & Hxy & Heq).
  by simplify_eq.
Qed.

Lemma returned_domain_is_external_witness :
  ("acme.com" ∉ INTERNAL ∅) ∧ ("acme.com" ∉ IGNORE ∅) ∧
  ∃ a local dom,
    a ∈ [ADict (Some "Jane@Mail.Acme.com"); AStr "bob@gmail.com"] ∧
    attendee_email a = local ++ "@"%char :: dom ∧
    "acme.com" = base_domain dom.
Proof.
  apply (returned_domain_is_external ∅
           (Some [ADict (Some "Jane@Mail.Acme.com"); AStr "bob@gmail.com"])
           None None {| companyName := "Acme"; companyDomain := "acme.com" |}).
  - vm_compute. reflexivity.
  - discriminate.
Defined.

(** X2: a base domain has at most two labels: it holds at most one dot. *)
Theorem base_domain_at_most_one_dot (d : list ascii) :
  length (filter (λ c, c = "."%char) (base_domain d)) ≤ 1.
Proof.
  pose proof (base_domain_labels d) as H. rewrite split_length in H. lia.
Qed.

(** X3: [base_domain] does not see letter case, nor white space around
    its argument. *)
Theorem base_domain_ignores_case_and_margin (d d' : list ascii) :
  lower (strip d) = lower (strip d') → base_domain d = base_domain d'.
Proof.
  intros H. unfold base_domain. by rewrite !strip_lower, H.
Qed.

Lemma base_domain_ignores_case_and_margin_witness :
  base_domain "  WWW.Acme.COM " = base_domain "www.acme.com".
Proof.
  apply base_domain_ignores_case_and_margin. vm_compute. reflexivity.
Defined.

(** X5: every entry of the three configured domain lists is not empty,
    in lower case, without white space at its ends and without comma. *)
Theorem configured_domains_normalized environ x :
  x ∈ INTERNAL environ ∨ x ∈ IGNORE environ ∨ x ∈ PRIORITY environ →
  x ≠ [] ∧ lower x = x ∧ strip x = x ∧ ","%char ∉ x.
Proof.
  assert (∀ v, x ∈ domain_list v →
               x ≠ [] ∧ lower x = x ∧ strip x = x ∧ ","%char ∉ x) as Hlist.
  { intros v. unfold domain_list.
    intros (p & -> & [Hne Hp]%list_elem_of_filter)%list_elem_of_fmap.
    split_and!.
    - intros ?%lower_nil_inv. done.
    - apply lower_idem.
    - by rewrite <- strip_lower, strip_idem.
    - pose proof (split_no_sep ","%char v) as Hsep.
      rewrite Forall_forall in Hsep. specialize (Hsep _ Hp).
      unfold lower. intros (c & Hc & Hin)%list_elem_of_fmap.
      assert (c = ","%char) as ->
        by (revert Hc; destruct c as [[] [] [] [] [] [] [] []];
            vm_compute; congruence).
      apply Hsep. by apply strip_elem. }
  unfold INTERNAL, IGNORE, PRIORITY.
  rewrite !elem_of_list_to_set. intros [H|[H|H]]; by eapply Hlist.
Qed.

Lemma configured_domains_normalized_witness :
  "zoom.us" ≠ [] ∧ lower "zoom.us" = "zoom.us" ∧ strip "zoom.us" = "zoom.us"
  ∧ ","%char ∉ "zoom.us".
Proof.
  apply (configured_domains_normalized
           {["IGNORE_DOMAINS" := " Zoom.US ,, example.org"]}).
  right. left. vm_compute. reflexivity.
Defined.

(** X7: an attendee entry without e-mail address changes nothing,
    wherever it stands in the list. *)
Theorem entry_without_email_is_ignored environ l1 a l2 s e :
  no_email a →
  attendees_to_company environ (Some (l1 ++ a :: l2)) s e
  = attendees_to_company environ (Some (l1 ++ l2)) s e.
Proof.
  intros Ha. destruct (NAME_MAP_returns environ) as [nm Hnm].
  rewrite !(attendees_to_company_spec _ _ _ _ _ Hnm). simpl.
  rewrite !omap_app. cbn [omap list_omap].
  by rewrite (no_email_domain _ Ha).
Qed.

Lemma entry_without_email_is_ignored_witness :
  attendees_to_company ∅
    (Some ([AStr "a@acme.com"] ++ ADict None :: [AStr "b@beta.com"])) None None
  = attendees_to_company ∅
      (Some ([AStr "a@acme.com"] ++ [AStr "b@beta.com"])) None None.
Proof. apply entry_without_email_is_ignored. exact I. Defined.

Section name_map_facts.
Implicit Types (m nm : gmap (list ascii) (list ascii)).
Implicit Types (pairs : list (list ascii)) (p key name : list ascii).

(** What the loop does to the map for one entry. *)
Lemma name_map_loop_cons p pairs m :
  name_map_loop (p :: pairs) m
  = match name_map_entry p with
    | Some (k, n) => name_map_loop pairs (<[k := n]> m)
    | None => Raise ValueError
    end.
Proof.
  cbn [name_map_loop]. unfold name_map_entry, split1.
  destruct (cut ":" p) as [[dom name]|]; done.
Qed.

Lemma name_map_loop_keeps pairs m nm key :
  name_map_loop pairs m = Ok nm →
  Forall (λ q, ∀ n, name_map_entry q ≠ Some (key, n)) pairs →
  nm !! key = m !! key.
Proof.
  revert m. induction pairs as [|q pairs IH]; intros m.
  { by intros [= <-]. }
  rewrite name_map_loop_cons, Forall_cons.
  destruct (name_map_entry q) as [[k n]|] eqn:Hq; [|done].
  intros Hloop [Hkey Hrest]. rewrite (IH _ Hloop Hrest).
  apply lookup_insert_ne. intros ->. by apply (Hkey n).
Qed.

Lemma name_map_loop_from pairs m nm key name :
  name_map_loop pairs m = Ok nm → nm !! key = Some name →
  m !! key = Some name ∨ ∃ q, q ∈ pairs ∧ name_map_entry q = Some (key, name).
Proof.
  revert m. induction pairs as [|q pairs IH]; intros m.
  { intros [= <-]. by left. }
  rewrite name_map_loop_cons.
  destruct (name_map_entry q) as [[k n]|] eqn:Hq; [|done].
  intros Hloop Hkey. destruct (IH _ Hloop Hkey) as [Hm|(q' & Hin & Hq')].
  - destruct (decide (k = key)) as [->|Hne].
    + rewrite lookup_insert_eq in Hm. injection Hm as ->.
      right. exists q. split; [left|done].
    + rewrite lookup_insert_ne in Hm by done. by left.
  - right. exists q'. split; [by right|done].
Qed.

End name_map_facts.

(** X4: [NAME_MAP] holds, for a key, the name of the last entry of
    [DOMAIN_NAME_MAP] with that key, cut at the entry's first colon; and
    it holds nothing that no entry gives. *)
Theorem name_map_last_entry_wins environ nm :
  NAME_MAP environ = Ok nm →
  (∀ before p after key name,
     name_map_pairs (getenv environ "DOMAIN_NAME_MAP" "")
       = before ++ p :: after →
     name_map_entry p = Some (key, name) →
     Forall (λ q, ∀ n, name_map_entry q ≠ Some (key, n)) after →
     nm !! key = Some name) ∧
  (∀ key name,
     nm !! key = Some name →
     ∃ p, p ∈ name_map_pairs (getenv environ "DOMAIN_NAME_MAP" "") ∧
          name_map_entry p = Some (key, name)).
Proof.
  unfold NAME_MAP. intros Hnm. split.
  - intros before p after key name Hpairs Hp Hafter.
    rewrite Hpairs in Hnm. clear Hpairs.
    revert Hnm. generalize (∅ : gmap (list ascii) (list ascii)).
    induction before as [|q before IH]; intros m; cbn [app].
    + rewrite name_map_loop_cons, Hp. intros Hloop.
      rewrite (name_map_loop_keeps _ _ _ _ Hloop Hafter).
      apply lookup_insert_eq.
    + rewrite name_map_loop_cons.
      destruct (name_map_entry q) as [[k n]|]; [|done]. apply IH.
  - intros key name Hkey.
    destruct (name_map_loop_from _ _ _ _ _ Hnm Hkey) as [Hm|H]; [|done].
    by rewrite lookup_empty in Hm.
Qed.

Lemma name_map_last_entry_wins_witness :
  ∃ nm,
    NAME_MAP {["DOMAIN_NAME_MAP" := "fb.com:Facebook, FB.com : Meta:Inc ,x"]}
    = Ok nm ∧
    nm !! "fb.com" = Some "Meta:Inc".
Proof.
  destruct (NAME_MAP_returns
              {["DOMAIN_NAME_MAP" := "fb.com:Facebook, FB.com : Meta:Inc ,x"]})
    as [nm Hnm].
  exists nm. split; [exact Hnm|].
  apply (proj1 (name_map_last_entry_wins _ nm Hnm)
           ["fb.com:Facebook"] "FB.com : Meta:Inc" []).
  - vm_compute. reflexivity.
  - vm_compute. reflexivity.
  - constructor.
Defined.

Section phrase.
Context {R : Type}.
Implicit Types (s : list ascii) (g : option (list ascii)).


End phrase.








(* ===================================================================== *)
(** * Which events are listed *)
(* ===================================================================== *)

Section exclusion_facts.
Implicit Types (d mode suf s : list ascii) (emails : list (list ascii)).
Implicit Types (p : list ascii * list ascii).

Lemma startswith_prefix suf s : startswith suf s = true ↔ suf `prefix_of` s.
Proof.
  revert s. induction suf as [|x suf IH]; intros [|y s]; cbn [startswith].
  - split; [intros _; apply prefix_nil | done].
  - split; [intros _; apply prefix_nil | done].
  - split; [done | by intros ?%prefix_nil_inv].
  - rewrite andb_true_iff, bool_decide_eq_true, IH. split.
    + intros [-> H]. by apply prefix_cons.
    + intros H. split;
        [by eapply prefix_cons_inv_1 | by eapply prefix_cons_inv_2].
Qed.

Lemma endswith_suffix suf s : endswith suf s = true ↔ suf `suffix_of` s.
Proof.
  unfold endswith. by rewrite startswith_prefix, <- suffix_prefix_reverse.
Qed.

(** The [@] of the suffix pins the comparison to the whole domain. *)
Lemma endswith_address d p :
  "@"%char ∉ d → "@"%char ∉ p.2 →
  endswith ("@" ++ d) (address p) = true ↔ p.2 = d.
Proof.
  intros Hd Hp. rewrite endswith_suffix. unfold address. split.
  - intros [k E]. cbn [app] in E.
    apply (not_elem_of_app_cons_inv_r _ _ _ _ _ _ Hd Hp) in E.
    by destruct E as (_ & _ & ?).
  - intros <-. by exists p.1.
Qed.

Lemma forallb_address d pairs :
  "@"%char ∉ d → Forall (λ p, "@"%char ∉ p.2) pairs →
  forallb (endswith ("@" ++ d)) (address <$> pairs) = true
  ↔ Forall (λ p, p.2 = d) pairs.
Proof.
  intros Hd. induction 1 as [|p pairs Hp _ IH].
  - by split.
  - rewrite fmap_cons. cbn [forallb].
    by rewrite andb_true_iff, Forall_cons, IH, endswith_address.
Qed.

Lemma existsb_address d pairs :
  "@"%char ∉ d → Forall (λ p, "@"%char ∉ p.2) pairs →
  existsb (endswith ("@" ++ d)) (address <$> pairs) = true
  ↔ Exists (λ p, p.2 = d) pairs.
Proof.
  intros Hd. induction 1 as [|p pairs Hp _ IH].
  - split; [done | by intros ?%Exists_nil].
  - rewrite fmap_cons. cbn [existsb].
    by rewrite orb_true_iff, Exists_cons, IH, endswith_address.
Qed.

(** The decision looks at which addresses there are, not at how often
    or in which order. *)
Lemma exclude_same_elements emails emails' d mode :
  (∀ x, x ∈ emails ↔ x ∈ emails') →
  exclude_event_by_domain emails d mode
  = exclude_event_by_domain emails' d mode.
Proof.
  intros Hsame. unfold exclude_event_by_domain.
  assert (emails = [] ↔ emails' = []) as Hnil.
  { split; intros ->.
    - destruct emails' as [|x l]; [done|]. exfalso.
      eapply not_elem_of_nil. apply Hsame. left.
    - destruct emails as [|x l]; [done|]. exfalso.
      eapply not_elem_of_nil. apply Hsame. left. }
  rewrite (bool_decide_ext (d = [] ∨ emails = []) (d = [] ∨ emails' = []))
    by tauto.
  assert (∀ f, forallb f emails = forallb f emails') as ->.
  { intros f. apply Bool.eq_iff_eq_true. rewrite !forallb_forall.
    split; intros H x Hx%list_elem_of_In; apply H, list_elem_of_In;
      by apply Hsame. }
  assert (∀ f, existsb f emails = existsb f emails') as ->; [|done].
  intros f. apply Bool.eq_iff_eq_true. rewrite !existsb_exists.
  split; intros (x & Hx%list_elem_of_In & Hf); exists x;
    (split; [apply list_elem_of_In; by apply Hsame | done]).
Qed.

Lemma exclude_all_any emails d mode :
  exclude_event_by_domain emails d "all" = true →
  exclude_event_by_domain emails d mode = true.
Proof.
  unfold exclude_event_by_domain.
  destruct (bool_decide (d = [] ∨ emails = [])) eqn:Hnone; [done|].
  apply bool_decide_eq_false in Hnone. cbv zeta.
  rewrite (bool_decide_eq_true_2 ("all" = "all")) by done.
  intros Hall. destruct (bool_decide (mode = "all")); [done|].
  destruct emails as [|x l]; [destruct Hnone; by right|].
  cbn [forallb existsb] in *. by apply andb_true_iff in Hall as [-> _].
Qed.

Lemma filter_sublist_mono {A} (P Q : A → Prop)
    `{!∀ x, Decision (P x), !∀ x, Decision (Q x)} (l : list A) :
  (∀ x, P x → Q x) → filter P l `sublist_of` filter Q l.
Proof.
  intros HPQ. induction l as [|x l IH]; [done|]. rewrite !filter_cons.
  destruct (decide (P x)) as [HP|HP].
  - rewrite decide_True by auto. by apply sublist_skip.
  - destruct (decide (Q x)); [by apply sublist_cons | done].
Qed.

End exclusion_facts.

(** X8: for addresses with one [@], exclusion compares the whole domain
    after the [@] with the excluded domain: in the mode [all] every
    address has to lie at that domain, and there has to be one; in any
    other mode one address there is enough.  A domain that only ends
    like the excluded one does not count. *)
Theorem exclusion_compares_whole_domain
    (pairs : list (list ascii * list ascii)) (d mode : list ascii) :
  "@"%char ∉ d → Forall (λ p, "@"%char ∉ p.2) pairs →
  exclude_event_by_domain (address <$> pairs) d mode = true ↔
  d ≠ [] ∧
  if bool_decide (mode = "all")
  then pairs ≠ [] ∧ Forall (λ p, p.2 = d) pairs
  else Exists (λ p, p.2 = d) pairs.
Proof.
  intros Hd Hpairs. unfold exclude_event_by_domain.
  destruct (bool_decide (d = [] ∨ address <$> pairs = [])) eqn:Hnone.
  - apply bool_decide_eq_true in Hnone.
    split; [done|]. intros [Hne Hrest]. exfalso.
    destruct Hnone as [->|Hnil]; [done|].
    apply fmap_nil_inv in Hnil as ->.
    destruct (bool_decide (mode = "all")); [by destruct Hrest|].
    by apply Exists_nil in Hrest.
  - apply bool_decide_eq_false in Hnone. cbv zeta.
    assert (d ≠ [] ∧ pairs ≠ []) as [Hne Hpne].
    { split; intros ->; apply Hnone; [by left | by right]. }
    destruct (bool_decide (mode = "all")).
    + rewrite forallb_address by done. tauto.
    + rewrite existsb_address by done. tauto.
Qed.

Lemma exclusion_compares_whole_domain_witness :
  exclude_event_by_domain
    (address <$> [("jane", "acme.com"); ("bob", "kempfenterprise.com")])
    "kempfenterprise.com" "any" = true.
Proof.
  apply (exclusion_compares_whole_domain
           [("jane", "acme.com"); ("bob", "kempfenterprise.com")]
           "kempfenterprise.com" "any").
  - intros H; repeat (apply elem_of_cons in H as [H|H]; [discriminate|]);
      by apply elem_of_nil in H.
  - repeat constructor;
      intros H; repeat (apply elem_of_cons in H as [H|H]; [discriminate|]);
      by apply elem_of_nil in H.
  - split; [done|]. rewrite bool_decide_eq_false_2 by done.
    right. by left.
Defined.

(** X9: removing the repeated addresses changes nothing for the
    exclusion: the addresses [collect_event_emails] returns exclude the
    event exactly when the addresses it collected do. *)
Theorem exclusion_ignores_repeats (e : event) (d mode : list ascii) :
  exclude_event_by_domain (collect_event_emails e) d mode
  = exclude_event_by_domain (event_emails e) d mode.
Proof.
  apply exclude_same_elements. intros x. unfold collect_event_emails.
  rewrite dedup_loop_spec, app_nil_l, firsts_from_elem.
  split; [tauto|]. intros Hx. split; [done|]. apply not_elem_of_empty.
Qed.

(** X10: the event loop lists under the mode [all] every event that it
    lists under another mode, in the same order. *)
Theorem listing_under_all_keeps_more
    (events : list event) (d mode : list ascii) :
  listed_events events d mode `sublist_of` listed_events events d "all".
Proof.
  unfold listed_events. apply filter_sublist_mono. intros e Hany.
  destruct (exclude_event_by_domain (collect_event_emails e) d "all")
    eqn:Hall; [|done].
  by rewrite (exclude_all_any _ _ mode Hall) in Hany.
Qed.

(* ===================================================================== *)
(** * The resources text and the Slack message *)
(* ===================================================================== *)

Section slack_facts.
Implicit Types (rs : list resource) (BULLET EM_DASH : list ascii).

Lemma format_resources_text_nil BULLET rs :
  format_resources_text BULLET rs = [] ↔ rs = [].
Proof.
  unfold format_resources_text. case_bool_decide as Hrs; [done|].
  split; [|done]. intros H. exfalso.
  destruct rs as [|r [|r' rs]]; [done|..];
    rewrite ?fmap_cons, ?fmap_nil in H; cbn [join] in H;
    apply (f_equal length) in H;
    rewrite !length_app in H; cbn [length] in H; lia.
Qed.

Lemma newline_not_in_line BULLET (r : resource) :
  "010"%char ∉ BULLET → "010"%char ∉ label r → "010"%char ∉ url r →
  "010"%char ∉ BULLET ++ " *" ++ label r ++ "*: " ++ url r.
Proof.
  intros HB Hl Hu. rewrite !not_elem_of_app. split_and!; [done| |done| |done];
    intros H; repeat (apply elem_of_cons in H as [H|H]; [discriminate|]);
    by apply elem_of_nil in H.
Qed.

End slack_facts.

(** X11: every message the Slack helper posts goes to the configured
    web hook, with the toggle on; its blocks are the header with the
    company name, the three fields (title, time, and the addresses or a
    dash), the summary or its placeholder, then the resources text when
    there is one, and the button with the link as the last block. *)
Theorem slack_message_layout (EM_DASH : list ascii) (auto_slack : bool)
    (post_ok : list ascii → list block → bool)
    (summary link company_name event_title event_time poc_emails
       resources_text slack_webhook w : list ascii) (blocks : list block) :
  (w, blocks) ∈ (post_to_slack_if_enabled EM_DASH auto_slack post_ok summary
                   link company_name event_title event_time poc_emails
                   resources_text slack_webhook).1 →
  auto_slack = true ∧ w = slack_webhook ∧ w ≠ [] ∧
  blocks =
    [Header ("POC Slides Brief " ++ EM_DASH ++ " " ++ company_name);
     Fields ["*Event:*" ++ ["010"%char] ++ event_title;
             "*When:*" ++ ["010"%char] ++ event_time;
             "*POC Emails:*" ++ ["010"%char]
               ++ (if bool_decide (poc_emails = []) then EM_DASH
                   else poc_emails)];
     Section_ (if bool_decide (summary = []) then "_(no summary)_"
               else summary)]
    ++ (if bool_decide (resources_text = []) then []
        else [Section_ resources_text])
    ++ [Actions link].
Proof.
  unfold post_to_slack_if_enabled. destruct auto_slack; cbn [negb].
  2:{ by intros ?%elem_of_nil. }
  case_bool_decide as Hw; [by intros ?%elem_of_nil|]. cbn [fst].
  intros [= -> ->]%list_elem_of_singleton. split_and!; [done..|].
  unfold slack_blocks, or_str. rewrite bool_decide_not.
  by destruct (bool_decide (resources_text = [])).
Qed.

Lemma slack_message_layout_witness :
  true = true ∧ "https://hooks.example/T0" = "https://hooks.example/T0" ∧
  "https://hooks.example/T0" ≠ [] ∧
  slack_blocks em_dash_utf8 "" "https://docs.example/d/1" "Acme" "Kickoff"
    "2025-08-12T10:00:00-05:00" "" "- *Guide*: https://help.example/g" =
    [Header ("POC Slides Brief " ++ em_dash_utf8 ++ " " ++ "Acme");
     Fields ["*Event:*" ++ ["010"%char] ++ "Kickoff";
             "*When:*" ++ ["010"%char] ++ "2025-08-12T10:00:00-05:00";
             "*POC Emails:*" ++ ["010"%char]
               ++ (if bool_decide (@nil ascii = []) then em_dash_utf8
                   else [])];
     Section_ (if bool_decide (@nil ascii = []) then "_(no summary)_"
               else [])]
    ++ (if bool_decide ("- *Guide*: https://help.example/g" = []) then []
        else [Section_ "- *Guide*: https://help.example/g"])
    ++ [Actions "https://docs.example/d/1"].
Proof.
  apply (slack_message_layout em_dash_utf8 true (λ _ _, true) ""
           "https://docs.example/d/1" "Acme" "Kickoff"
           "2025-08-12T10:00:00-05:00" "" "- *Guide*: https://help.example/g"
           "https://hooks.example/T0").
  left.
Defined.

(** X12: the helper returns [True] only when the toggle is on, a web
    hook is configured, one message was posted to it and the POST went
    through. *)
Theorem slack_flag_means_posted (EM_DASH : list ascii) (auto_slack : bool)
    (post_ok : list ascii → list block → bool)
    (summary link company_name event_title event_time poc_emails
       resources_text slack_webhook : list ascii) :
  (post_to_slack_if_enabled EM_DASH auto_slack post_ok summary link
     company_name event_title event_time poc_emails resources_text
     slack_webhook).2 = true →
  auto_slack = true ∧ slack_webhook ≠ [] ∧
  ∃ blocks,
    (post_to_slack_if_enabled EM_DASH auto_slack post_ok summary link
       company_name event_title event_time poc_emails resources_text
       slack_webhook).1 = [(slack_webhook, blocks)] ∧
    post_ok slack_webhook blocks = true.
Proof.
  unfold post_to_slack_if_enabled. destruct auto_slack; cbn [negb]; [|done].
  case_bool_decide as Hw; [done|]. cbn [fst snd]. eauto.
Qed.

Lemma slack_flag_means_posted_witness :
  true = true ∧ "https://hooks.example/T0" ≠ [] ∧
  ∃ blocks,
    (post_to_slack_if_enabled em_dash_utf8 true
       (λ w _, bool_decide (w = "https://hooks.example/T0"))
       "Summary" "https://docs.example/d/1" "Acme" "Kickoff" "" "a@acme.com"
       "" "https://hooks.example/T0").1
    = [("https://hooks.example/T0", blocks)] ∧
    (λ w (_ : list block), bool_decide (w = "https://hooks.example/T0"))
      "https://hooks.example/T0" blocks = true.
Proof.
  apply (slack_flag_means_posted em_dash_utf8 true
           (λ w _, bool_decide (w = "https://hooks.example/T0"))).
  vm_compute. reflexivity.
Defined.

(** X13: the resources text is empty exactly when no resource is
    selected, so the Slack message has five blocks when a resource is
    selected and four when none is. *)
Theorem resources_block_iff_selected (BULLET EM_DASH : list ascii)
    (summary link company_name event_title event_time poc_emails : list ascii)
    (selected_resources : list resource) :
  (format_resources_text BULLET selected_resources = []
   ↔ selected_resources = []) ∧
  length (slack_blocks EM_DASH summary link company_name event_title
            event_time poc_emails
            (format_resources_text BULLET selected_resources))
  = if bool_decide (selected_resources = []) then 4 else 5.
Proof.
  split; [apply format_resources_text_nil|].
  unfold slack_blocks.
  rewrite (bool_decide_ext _ (selected_resources ≠ []))
    by (by rewrite format_resources_text_nil).
  case_bool_decide as Hr.
  - by rewrite bool_decide_eq_false_2.
  - by rewrite bool_decide_eq_true_2.
Qed.

(** X14: when bullet, labels and URLs hold no newline, the resources
    text has one line per selected resource, in the order of the
    resources: the bullet, the label between asterisks, a colon and the
    URL. *)
Theorem resources_text_lines (BULLET : list ascii)
    (selected_resources : list resource) :
  "010"%char ∉ BULLET →
  Forall (λ r, ("010"%char ∉ label r) ∧ ("010"%char ∉ url r))
    selected_resources →
  selected_resources ≠ [] →
  split "010"%char (format_resources_text BULLET selected_resources)
  = (λ r, BULLET ++ " *" ++ label r ++ "*: " ++ url r) <$> selected_resources.
Proof.
  intros HB Hrs Hne. unfold format_resources_text.
  rewrite bool_decide_eq_false_2 by done. apply split_join.
  - apply Forall_fmap. eapply Forall_impl; [exact Hrs|].
    intros r [Hl Hu]. by apply newline_not_in_line.
  - by intros ?%fmap_nil_inv.
Qed.

Lemma resources_text_lines_witness :
  split "010"%char
    (format_resources_text bullet_utf8
       [ {| label := "AWS Guide"; url := "https://help.example/aws" |};
         {| label := "Okta Guide"; url := "https://help.example/okta" |} ])
  = (λ r, bullet_utf8 ++ " *" ++ label r ++ "*: " ++ url r)
    <$> [ {| label := "AWS Guide"; url := "https://help.example/aws" |};
          {| label := "Okta Guide"; url := "https://help.example/okta" |} ].
Proof.
  apply resources_text_lines.
  - intros H; repeat (apply elem_of_cons in H as [H|H]; [discriminate|]);
      by apply elem_of_nil in H.
  - repeat constructor;
      intros H; repeat (apply elem_of_cons in H as [H|H]; [discriminate|]);
      by apply elem_of_nil in H.
  - done.
Defined.
